(** * Battery ROI engine: calculateBatteryROI and runSanityCheck

    A shallow embedding of [src/lib/roi-calculator.ts] and
    [src/lib/roi-sanity.ts], together with models of the two numeric
    substrates the code runs on: decimal.js values ([Dec]) and JavaScript
    numbers ([Num], IEEE 754 binary64 through the standard library's
    [SpecFloat]).

    The figures of [calculateBatteryROI] are computed by lines 232-319 of
    the source; its return statement then calls [o_and_m.clone()], which
    no decimal.js value has, so that the call itself ends in a TypeError.
    The figures and the completion of a call are kept apart below. *)

From Stdlib Require Import ZArith List Bool Lia QArith Qabs Qpower Qround Lqa SpecFloat.
Import ListNotations.
Local Open Scope Z_scope.

(* ================================================================== *)
(** ** decimal.js values *)
(* ================================================================== *)

(** The arithmetic the source calls is that of the decimal.js library in
    its default configuration, which the source never changes:
    [precision = 20] significant digits and [rounding = ROUND_HALF_UP].
    Every arithmetic method computes the exact result and rounds it to
    [precision] significant digits; comparisons, [abs] and [Decimal.min]
    do not round.

    A value is NaN, an infinity, or a finite number [m * 10^e].  Two
    features of the library are left out: the exponent limits (9e15, far
    outside anything the program reaches from ordinary inputs) and the sign
    of zero, which the program can observe only through the sign of an
    infinity produced by a division by zero; nothing proved below depends
    on the sign of an infinity. *)
Module Dec.

Inductive t : Type :=
| NaN
| Inf (neg : bool)
| Fin (m e : Z).

Definition precision : Z := 20.

Definition isNaN (x : t) : bool := match x with NaN => true | _ => false end.
Definition isFinite (x : t) : bool := match x with Fin _ _ => true | _ => false end.
Definition isZero (x : t) : bool := match x with Fin m _ => m =? 0 | _ => false end.

(** Number of decimal digits of [|n|] ([0] for [0]): the first [d] with
    [|n| < 10^d], searched upwards with [p = 10^d]. *)
Fixpoint digits_up (fuel : nat) (n p d : Z) : Z :=
  match fuel with
  | O => d
  | S f => if n <? p then d else digits_up f n (10 * p) (d + 1)
  end.

Definition digits (n : Z) : Z :=
  if n =? 0 then 0
  else digits_up (Z.to_nat (Z.log2 (Z.abs n))) (Z.abs n) 10 1.

(** Trailing zeros of the coefficient are removed, as decimal.js does. *)
Fixpoint strip (fuel : nat) (m e : Z) : Z * Z :=
  match fuel with
  | O => (m, e)
  | S f => if m mod 10 =? 0 then strip f (m / 10) (e + 1) else (m, e)
  end.

Definition normal (m e : Z) : t :=
  if m =? 0 then Fin 0 0
  else let '(m', e') := strip (S (Z.to_nat (Z.log2 (Z.abs m)))) m e in Fin m' e'.

(** [m / 10^k] rounded to the nearest integer, halves away from zero. *)
Definition round_half_up (m k : Z) : Z :=
  Z.sgn m * ((Z.abs m + 5 * 10 ^ (k - 1)) / 10 ^ k).

(** Rounding of an exact result [m * 10^e] to [precision] significant
    digits. *)
Definition finalise (m e : Z) : t :=
  let d := digits m in
  if d <=? precision then normal m e
  else normal (round_half_up m (d - precision)) (e + (d - precision)).

(** Both coefficients brought to the smaller exponent. *)
Definition align (m1 e1 m2 e2 : Z) : Z * Z :=
  let e := Z.min e1 e2 in (m1 * 10 ^ (e1 - e), m2 * 10 ^ (e2 - e)).

Definition cmp (x y : t) : option comparison :=
  match x, y with
  | NaN, _ | _, NaN => None
  | Inf s1, Inf s2 =>
      Some (match s1, s2 with
            | true, false => Lt
            | false, true => Gt
            | _, _ => Eq
            end)
  | Inf s, Fin _ _ => Some (if s then Lt else Gt)
  | Fin _ _, Inf s => Some (if s then Gt else Lt)
  | Fin m1 e1, Fin m2 e2 =>
      let '(a, b) := align m1 e1 m2 e2 in Some (a ?= b)
  end.

Definition eq (x y : t) : bool :=
  match cmp x y with Some Eq => true | _ => false end.
Definition lt (x y : t) : bool :=
  match cmp x y with Some Lt => true | _ => false end.
Definition gt (x y : t) : bool :=
  match cmp x y with Some Gt => true | _ => false end.
Definition lte (x y : t) : bool :=
  match cmp x y with Some Lt | Some Eq => true | _ => false end.
Definition gte (x y : t) : bool :=
  match cmp x y with Some Gt | Some Eq => true | _ => false end.

Definition abs (x : t) : t :=
  match x with
  | NaN => NaN
  | Inf _ => Inf false
  | Fin m e => Fin (Z.abs m) e
  end.

Definition plus (x y : t) : t :=
  match x, y with
  | NaN, _ | _, NaN => NaN
  | Inf s1, Inf s2 => if Bool.eqb s1 s2 then Inf s1 else NaN
  | Inf s, Fin _ _ => Inf s
  | Fin _ _, Inf s => Inf s
  | Fin m1 e1, Fin m2 e2 =>
      let '(a, b) := align m1 e1 m2 e2 in finalise (a + b) (Z.min e1 e2)
  end.

Definition minus (x y : t) : t :=
  match x, y with
  | NaN, _ | _, NaN => NaN
  | Inf s1, Inf s2 => if Bool.eqb s1 s2 then NaN else Inf s1
  | Inf s, Fin _ _ => Inf s
  | Fin _ _, Inf s => Inf (negb s)
  | Fin m1 e1, Fin m2 e2 =>
      let '(a, b) := align m1 e1 m2 e2 in finalise (a - b) (Z.min e1 e2)
  end.

Definition mul (x y : t) : t :=
  match x, y with
  | NaN, _ | _, NaN => NaN
  | Inf s1, Inf s2 => Inf (xorb s1 s2)
  | Inf s, Fin m _ => if m =? 0 then NaN else Inf (xorb s (m <? 0))
  | Fin m _, Inf s => if m =? 0 then NaN else Inf (xorb (m <? 0) s)
  | Fin m1 e1, Fin m2 e2 => finalise (m1 * m2) (e1 + e2)
  end.

(** Quotient of two non-zero finite values: the integer quotient is taken
    with at least [precision + 1] digits, so that the digit deciding the
    half-up rounding is a digit of the true quotient. *)
Definition div_fin (m1 e1 m2 e2 : Z) : t :=
  let s := Z.max 0 (precision + 1 + digits m2 - digits m1) in
  let q := (Z.abs m1 * 10 ^ s) / Z.abs m2 in
  finalise (Z.sgn m1 * Z.sgn m2 * q) (e1 - e2 - s).

Definition div (x y : t) : t :=
  match x, y with
  | NaN, _ | _, NaN => NaN
  | Inf _, Inf _ => NaN
  | Inf s, Fin m _ => Inf (xorb s (m <? 0))
  | Fin _ _, Inf _ => Fin 0 0
  | Fin m1 e1, Fin m2 e2 =>
      if m2 =? 0 then (if m1 =? 0 then NaN else Inf (m1 <? 0))
      else if m1 =? 0 then Fin 0 0
      else div_fin m1 e1 m2 e2
  end.

(** [x.pow(n)] for an integer [n].  With a zero, infinite or NaN base, or
    with [n = 0], decimal.js returns [Math.pow] of the two numbers.
    Otherwise it multiplies out [x^|n|] with guard digits, and rounds it
    (for [n > 0]) or divides [1] by it (for [n < 0]); the guard digits are
    taken here to be enough, that is [x^|n|] is exact before that last
    step. *)
Definition pow (x : t) (n : Z) : t :=
  if n =? 0 then Fin 1 0
  else
    match x with
    | NaN => NaN
    | Inf s =>
        if n <? 0 then Fin 0 0 else Inf (s && Z.odd n)
    | Fin m e =>
        if m =? 0 then (if n <? 0 then Inf false else Fin 0 0)
        else if n <? 0 then div (Fin 1 0) (Fin (m ^ (- n)) (e * (- n)))
        else finalise (m ^ n) (e * n)
    end.

(** [Decimal.min(x, y)]: NaN when either is, else the smaller argument,
    unrounded. *)
Definition min (x y : t) : t :=
  match x, y with
  | NaN, _ | _, NaN => NaN
  | _, _ => if gt x y then y else x
  end.

(** [new Decimal(n)] for an integer JavaScript number [n]. *)
Definition ofZ (n : Z) : t := Fin n 0.

End Dec.

Definition Decimal : Type := Dec.t.

(* ================================================================== *)
(** ** JavaScript numbers *)
(* ================================================================== *)

(** A JavaScript [number] is an IEEE 754 binary64 value; the operations are
    those of [SpecFloat] at 53 bits of precision. *)
Module Num.

Definition prec : Z := 53.
Definition emax : Z := 1024.

Definition t : Type := spec_float.

Definition nan : t := S754_nan.
Definition neg (x : t) : t := SFopp x.
Definition abs (x : t) : t := SFabs x.
Definition sub (x y : t) : t := SFsub prec emax x y.
Definition mul (x y : t) : t := SFmul prec emax x y.
Definition leb (x y : t) : bool := SFleb x y.
Definition eqb (x y : t) : bool := SFeqb x y.

(** [Math.max(a, b)]: NaN when either is, and [+0] above [-0]. *)
Definition max (a b : t) : t :=
  match SFcompare a b with
  | None => S754_nan
  | Some Lt => b
  | Some Gt => a
  | Some Eq => match a with S754_zero true => b | _ => a end
  end.

(** The number nearest to the fraction [num / den] (ties to even), which is
    what reading a decimal string or literal yields. *)
Definition ofFraction (s : bool) (num den : positive) : t :=
  SFdiv prec emax (S754_finite s num 0) (S754_finite false den 0).

(** The number nearest to [m * 10^e]. *)
Definition ofDecimal (m e : Z) : t :=
  match m with
  | Z0 => S754_zero false
  | Zpos p =>
      if 0 <=? e then ofFraction false (p * Z.to_pos (10 ^ e)) 1
      else ofFraction false p (Z.to_pos (10 ^ (- e)))
  | Zneg p =>
      if 0 <=? e then ofFraction true (p * Z.to_pos (10 ^ e)) 1
      else ofFraction true p (Z.to_pos (10 ^ (- e)))
  end.

(** A finite number [m * 2^e] as a fraction of integers. *)
Definition fraction (m : positive) (e : Z) : Z * Z :=
  if 0 <=? e then (Zpos m * 2 ^ e, 1) else (Zpos m, 2 ^ (- e)).

(** [decade num den] is the [n] with [10^(n-1) <= num/den < 10^n]. *)
Definition decade (num den : Z) : Z :=
  let t := Dec.digits num - Dec.digits den in
  let above := if 0 <=? t then den * 10 ^ t <=? num else den <=? num * 10 ^ (- t) in
  if above then t + 1 else t.

(** [Number.prototype.toString] picks the decimal [s * 10^x] with the
    fewest digits [k] that reads back as the same number, and among those
    the one nearest to it.  [shortest_at] tries one [k]: the two [k]-digit
    neighbours of [num/den] are the only candidates. *)
Definition shortest_at (v : t) (num den n k : Z) : option (Z * Z) :=
  let x := n - k in
  let lo := if 0 <=? x then num / (den * 10 ^ x) else (num * 10 ^ (- x)) / den in
  let hi := lo + 1 in
  let side := if 0 <=? x then 2 * num ?= (2 * lo + 1) * den * 10 ^ x
              else 2 * num * 10 ^ (- x) ?= (2 * lo + 1) * den in
  let oklo := eqb (ofDecimal lo x) v in
  let okhi := eqb (ofDecimal hi x) v in
  match oklo, okhi with
  | true, true =>
      Some (match side with
            | Lt => lo
            | Gt => hi
            | Eq => if Z.even lo then lo else hi
            end, x)
  | true, false => Some (lo, x)
  | false, true => Some (hi, x)
  | false, false => None
  end.

(** The search over [k]; 17 digits always identify a binary64 number, and
    the last case, the full decimal expansion, is there for totality. *)
Fixpoint shortest_from (fuel : nat) (v : t) (num den n k : Z) : Z * Z :=
  match fuel with
  | O => (num * 10 ^ (Z.log2 den) / den, - Z.log2 den)
  | S f =>
      match shortest_at v num den n k with
      | Some r => r
      | None => shortest_from f v num den n (k + 1)
      end
  end.

(** The digits and exponent of [String(v)] for a positive finite [v]. *)
Definition shortest (m : positive) (e : Z) : Z * Z :=
  let '(num, den) := fraction m e in
  shortest_from 17 (S754_finite false m e) num den (decade num den) 1.

End Num.

Definition number : Type := Num.t.

(** [x.toNumber()], and the number a Decimal coerces to under a unary
    minus or any other numeric operator: the number nearest to its
    value. *)
Definition toNumber (x : Decimal) : number :=
  match x with
  | Dec.NaN => S754_nan
  | Dec.Inf s => S754_infinity s
  | Dec.Fin m e => Num.ofDecimal m e
  end.

(** [new Decimal(v)] for a number [v]: decimal.js reads the digits of
    [String(v)]. *)
Definition ofNumber (v : number) : Decimal :=
  match v with
  | S754_nan => Dec.NaN
  | S754_infinity s => Dec.Inf s
  | S754_zero _ => Dec.Fin 0 0
  | S754_finite s m e =>
      let '(c, x) := Num.shortest m e in
      Dec.normal (if s then - c else c) x
  end.

(* ================================================================== *)
(** ** roi-calculator.ts *)
(* ================================================================== *)

(** [years] is a JavaScript number that only bounds the two
    [for (let year = 1; year <= years; year++)] loops; it is an integer
    here. *)
Record ROIInputs : Type := {
  capex_cogs : Decimal;
  price_ex_vat : Decimal;
  grant_pct : Decimal;
  capacity_kwh : Decimal;
  inverter_kw : Decimal;
  dod : Decimal;
  efficiency : Decimal;
  pv_cycles_per_year : Decimal;
  arbitrage_cycles_per_year : Decimal;
  annual_pv_kwh : Decimal;
  purchase_price_sek_per_kwh : Decimal;
  demand_price_sek_per_kw_month : Decimal;
  monthly_peaks_kw : list Decimal;
  spread_sek_per_kwh : Decimal;
  o_and_m : Decimal;
  wacc : Decimal;
  degradation : Decimal;
  years : Z
}.

(** How the evaluation of a call ends: with a value, or with an exception
    (the only one this program raises is a TypeError). *)
Inductive Completion (A : Type) : Type :=
| Returns (a : A)
| Throws.
Arguments Returns {A} a.
Arguments Throws {A}.

(** The [details] object of the return statement.  Four of its properties
    are initialised with a local variable; [o_and_m] is initialised with a
    method call, and holds how that call ends. *)
Module Details.
Record t : Type := {
  pv_savings : Decimal;
  demand_savings : Decimal;
  arbitrage_savings : Decimal;
  o_and_m : Completion Decimal;
  net_investment : Decimal
}.
End Details.

Record ROIOutputs : Type := {
  annual_net_sek : Decimal;
  payback : option Decimal;
  npv : Decimal;
  irr : option Decimal;
  details : Details.t
}.

(** The values [1 .. years] a [for (let year = 1; year <= years; year++)]
    loop runs through. *)
Definition year_range (years : Z) : list Z :=
  map Z.of_nat (seq 1 (Z.to_nat years)).

Definition dec_0_6 : Decimal := Dec.Fin 6 (-1).      (* new Decimal(0.6) *)
Definition dec_0_1 : Decimal := Dec.Fin 1 (-1).      (* new Decimal(0.1) *)
Definition dec_1e_6 : Decimal := Dec.Fin 1 (-6).     (* 1e-6 *)

Section Calculation.

Variable inputs : ROIInputs.

Definition usable : Decimal :=
  Dec.mul (Dec.mul (capacity_kwh inputs) (dod inputs)) (efficiency inputs).

Definition pv_savings : Decimal :=
  let pv_energy_per_year := Dec.mul usable (pv_cycles_per_year inputs) in
  let pv_energy_capped := Dec.min pv_energy_per_year (annual_pv_kwh inputs) in
  Dec.mul pv_energy_capped (purchase_price_sek_per_kwh inputs).

Definition cap_kw : Decimal := Dec.mul (inverter_kw inputs) dec_0_6.

(** One turn of the [for (const peak of monthly_peaks_kw)] loop. *)
Definition add_month (demand_savings peak : Decimal) : Decimal :=
  let shaved_kw := Dec.min peak cap_kw in
  Dec.plus demand_savings (Dec.mul shaved_kw (demand_price_sek_per_kw_month inputs)).

Definition demand_savings : Decimal :=
  fold_left add_month (monthly_peaks_kw inputs) (Dec.ofZ 0).

Definition arbitrage_savings : Decimal :=
  Dec.mul (Dec.mul usable (arbitrage_cycles_per_year inputs)) (spread_sek_per_kwh inputs).

Definition annual_net : Decimal :=
  Dec.minus (Dec.plus (Dec.plus pv_savings demand_savings) arbitrage_savings)
            (o_and_m inputs).

Definition net_investment : Decimal :=
  Dec.mul (capex_cogs inputs) (Dec.minus (Dec.ofZ 1) (grant_pct inputs)).

Definition payback_of : option Decimal :=
  if Dec.gt annual_net (Dec.ofZ 0) then Some (Dec.div net_investment annual_net)
  else None.

(** One turn of the cash-flow loop: the discounted, degraded net of
    [year]. *)
Definition discounted_net (year : Z) : Decimal :=
  let degraded_factor := Dec.pow (Dec.minus (Dec.ofZ 1) (degradation inputs)) (year - 1) in
  let degraded_net := Dec.mul annual_net degraded_factor in
  let discount_factor := Dec.pow (Dec.plus (Dec.ofZ 1) (wacc inputs)) (- year) in
  Dec.mul degraded_net discount_factor.

(** The loop state is [(npv, cashFlows)]. *)
Definition cash_flow_loop : Decimal * list Decimal :=
  fold_left
    (fun st year =>
       let discounted := discounted_net year in
       (Dec.plus (fst st) discounted, snd st ++ [discounted]))
    (year_range (years inputs)) (Dec.ofZ 0, []).

Definition npv_of : Decimal := Dec.minus (fst cash_flow_loop) net_investment.

(** [new Decimal(-net_investment)]: the unary minus turns the Decimal into
    a number, and the constructor reads that number back. *)
Definition minus_net_investment : Decimal :=
  ofNumber (Num.neg (toNumber net_investment)).

(** One turn of the inner loop of the Newton search; the state is
    [(npvGuess, derivative)]. *)
Definition newton_year (guess : Decimal) (st : Decimal * Decimal) (year : Z)
  : Decimal * Decimal :=
  let cf := Dec.mul annual_net
              (Dec.pow (Dec.minus (Dec.ofZ 1) (degradation inputs)) (year - 1)) in
  let df := Dec.pow (Dec.plus (Dec.ofZ 1) guess) year in
  (Dec.plus (fst st) (Dec.div cf df),
   Dec.minus (snd st)
     (Dec.mul (Dec.div (Dec.mul cf (Dec.ofZ year)) (Dec.pow df 2)) (Dec.ofZ 1))).

Definition newton_sums (guess : Decimal) : Decimal * Decimal :=
  fold_left (newton_year guess) (year_range (years inputs))
            (minus_net_investment, Dec.ofZ 0).

Definition npvGuess (guess : Decimal) : Decimal := fst (newton_sums guess).
Definition derivative (guess : Decimal) : Decimal := snd (newton_sums guess).

Definition newGuess (guess : Decimal) : Decimal :=
  Dec.minus guess (Dec.div (npvGuess guess) (derivative guess)).

(** [newGuess.minus(guess).abs().lt(1e-6)] *)
Definition close_enough (new_guess guess : Decimal) : bool :=
  Dec.lt (Dec.abs (Dec.minus new_guess guess)) dec_1e_6.

(** The [for (let i = 0; i < 50; i++)] loop with [n] turns left; the result
    is the value of [irr] when the loop is left.

    The loop body of the source starts with a second inner loop that
    computes a [cf] from [cashFlows] and never reads it, and with two
    variables [f] and [fPrime] that are never read either; Decimals being
    immutable, these have no effect and are not repeated here. *)
Fixpoint newton_loop (n : nat) (guess : Decimal) : option Decimal :=
  match n with
  | O => None
  | S n' =>
      let new_guess := newGuess guess in
      if close_enough new_guess guess then Some new_guess
      else newton_loop n' new_guess
  end.

(** [if (irr && irr.gt(-1) && irr.lt(10))]: a Decimal object is truthy
    whatever its value. *)
Definition bound_irr (irr : option Decimal) : option Decimal :=
  match irr with
  | Some r => if Dec.gt r (Dec.ofZ (-1)) && Dec.lt r (Dec.ofZ 10) then Some r else None
  | None => None
  end.

(** The [try] block; none of the Decimal operations in it throws, so the
    [catch] branch, which also sets [irr = null], is never taken. *)
Definition irr_of : option Decimal := bound_irr (newton_loop 50 dec_0_1).

(** [o_and_m.clone()]: decimal.js has [clone] as a method of the
    constructor only ([Decimal.clone], which makes a new constructor); a
    Decimal value has no property of that name, so [o_and_m.clone] is
    [undefined] and calling it raises a TypeError, whatever the value. *)
Definition clone (x : Decimal) : Completion Decimal := Throws.

(** The object literal of the return statement (lines 321-333), each
    property with what its initialiser evaluates to: the figures that
    lines 232-319 have computed, and the completion of the one call among
    the initialisers. *)
Definition calculateBatteryROI : ROIOutputs :=
  {| annual_net_sek := annual_net;
     payback := payback_of;
     npv := npv_of;
     irr := irr_of;
     details :=
       {| Details.pv_savings := pv_savings;
          Details.demand_savings := demand_savings;
          Details.arbitrage_savings := arbitrage_savings;
          Details.o_and_m := clone (o_and_m inputs);
          Details.net_investment := net_investment |} |}.

End Calculation.

(** A call of [calculateBatteryROI].  Lines 210-319 have no [throw] and no
    [return], check none of the arguments, call Decimal methods that are
    total on Decimal values, and wrap the IRR search in a [try] with a
    [catch]: every call reaches the return statement.  That statement
    evaluates its object literal, and completes as the initialiser of
    [details.o_and_m] does: the TypeError of [clone] is raised outside the
    [try] block and ends the call. *)
Definition call_calculateBatteryROI (inputs : ROIInputs) : Completion ROIOutputs :=
  let literal := calculateBatteryROI inputs in
  match Details.o_and_m (details literal) with
  | Returns _ => Returns literal
  | Throws => Throws
  end.

(** A run of [calculateBatteryROI] as seen from inside: the figures its
    body has computed by the time the call ends ([None] for a call that
    ends before line 232), and how the call ends.  The body is straight
    line code down to the return statement, so the figures are always
    there. *)
Record Run : Type := {
  computed : option ROIOutputs;
  completion : Completion ROIOutputs
}.

Definition run_calculateBatteryROI (inputs : ROIInputs) : Run :=
  {| computed := Some (calculateBatteryROI inputs);
     completion := call_calculateBatteryROI inputs |}.

(** The inputs of the demonstration page [BatteryROIResults.tsx], with
    five of them left open. *)
Definition scenario (capex grant : Decimal) (peaks : list Decimal)
    (o_m : Decimal) (horizon : Z) : ROIInputs :=
  {| capex_cogs := capex;
     price_ex_vat := Dec.Fin 0 0;
     grant_pct := grant;
     capacity_kwh := Dec.Fin 261 0;
     inverter_kw := Dec.Fin 125 0;
     dod := Dec.Fin 9 (-1);
     efficiency := Dec.Fin 92 (-2);
     pv_cycles_per_year := Dec.Fin 220 0;
     arbitrage_cycles_per_year := Dec.Fin 80 0;
     annual_pv_kwh := Dec.Fin 38726 0;
     purchase_price_sek_per_kwh := Dec.Fin 156 (-2);
     demand_price_sek_per_kw_month := Dec.Fin 1148 (-1);
     monthly_peaks_kw := peaks;
     spread_sek_per_kwh := Dec.Fin 30 (-2);
     o_and_m := o_m;
     wacc := Dec.Fin 8 (-2);
     degradation := Dec.Fin 2 (-2);
     years := horizon |}.

Definition reference_inputs : ROIInputs :=
  scenario (Dec.Fin 1264000 0) (Dec.Fin 65 (-2)) (repeat (Dec.Fin 75 0) 12)
           (Dec.Fin 5220 0) 12.

(** The reference site with an operating cost above its savings. *)
Definition loss_making_inputs : ROIInputs :=
  scenario (Dec.Fin 1264000 0) (Dec.Fin 65 (-2)) (repeat (Dec.Fin 75 0) 12)
           (Dec.Fin 200000 0) 12.

(** The reference site with one peak instead of twelve, a grant of 150 %
    and a horizon of zero years. *)
Definition malformed_inputs : ROIInputs :=
  scenario (Dec.Fin 1264000 0) (Dec.Fin 15 (-1)) [Dec.Fin 75 0] (Dec.Fin 5220 0) 0.

(** The reference site over a horizon of three years. *)
Definition three_year_inputs : ROIInputs :=
  scenario (Dec.Fin 1264000 0) (Dec.Fin 65 (-2)) (repeat (Dec.Fin 75 0) 12)
           (Dec.Fin 5220 0) 3.

(** The reference site with an operating cost of 1e-17. *)
Definition tiny_cost_inputs : ROIInputs :=
  scenario (Dec.Fin 1264000 0) (Dec.Fin 65 (-2)) (repeat (Dec.Fin 75 0) 12)
           (Dec.Fin 1 (-17)) 12.

(* ================================================================== *)
(** ** roi-sanity.ts *)
(* ================================================================== *)

(** The three [Record<string, number>] objects of a [SanityResult] all have
    the keys [annual] and [payback]. *)
Module Figures.
Record t : Type := {
  annual : number;
  payback : number
}.
End Figures.

Inductive Note : Type :=
| NoteOK            (* "OK" *)
| NoteDeviation.    (* "Avvikelser över tolerans – ..." *)

Record SanityResult : Type := {
  pass : bool;
  deltas : Figures.t;
  expected : Figures.t;
  actual : Figures.t;
  note : Note
}.

Definition num_5000 : number := Num.ofDecimal 5000 0.
Definition num_0_10 : number := Num.ofDecimal 10 (-2).
Definition num_0_25 : number := Num.ofDecimal 25 (-2).

Section Sanity.

(** Lines 27-45, which run once the call of line 26 has returned [res]. *)
Variable res : ROIOutputs.
Variables actualAnnualNet actualPayback : number.

Definition expAnnual : number := toNumber (annual_net_sek res).

(** [res.payback ? res.payback.toNumber() : NaN]; a Decimal object is
    truthy, so the test only separates [null]. *)
Definition expPayback : number :=
  match payback res with
  | Some p => toNumber p
  | None => Num.nan
  end.

Definition tolAnnual : number := Num.max num_5000 (Num.mul expAnnual num_0_10).
Definition tolPayback : number := num_0_25.

Definition deltaAnnual : number := Num.abs (Num.sub actualAnnualNet expAnnual).
Definition deltaPayback : number := Num.abs (Num.sub actualPayback expPayback).

Definition compare_with : SanityResult :=
  let pass := Num.leb deltaAnnual tolAnnual && Num.leb deltaPayback tolPayback in
  {| pass := pass;
     deltas := {| Figures.annual := deltaAnnual; Figures.payback := deltaPayback |};
     expected := {| Figures.annual := expAnnual; Figures.payback := expPayback |};
     actual := {| Figures.annual := actualAnnualNet; Figures.payback := actualPayback |};
     note := if pass then NoteOK else NoteDeviation |}.

End Sanity.

(** [runSanityCheck]: its first statement, [const res =
    calculateBatteryROI(inputs)], stands in no [try] block, so an
    exception of that call ends [runSanityCheck] as well; the comparison
    runs only on a result. *)
Definition runSanityCheck (inputs : ROIInputs) (actualAnnualNet actualPayback : number)
  : Completion SanityResult :=
  match call_calculateBatteryROI inputs with
  | Returns res => Returns (compare_with res actualAnnualNet actualPayback)
  | Throws => Throws
  end.





(* ================================================================== *)
(** ** Values, statements and scenarios used below *)
(* ================================================================== *)

(** Reduces the projections of the record of figures, so that a field is
    evaluated without the others. *)
Ltac field_of_result :=
  cbv beta iota delta
    [calculateBatteryROI annual_net_sek payback npv irr details
     Details.pv_savings Details.demand_savings Details.arbitrage_savings
     Details.o_and_m Details.net_investment clone].

Ltac field_of_result_in H :=
  cbv beta iota delta
    [calculateBatteryROI annual_net_sek payback npv irr details
     Details.pv_savings Details.demand_savings Details.arbitrage_savings
     Details.o_and_m Details.net_investment clone] in H.

(** *** Exact values *)

(** The exact value of a finite Decimal. *)
Definition F2Q (m e : Z) : Q := (inject_Z m * Qpower (10 # 1) e)%Q.

Definition toQ (x : Decimal) : Q :=
  match x with
  | Dec.Fin m e => F2Q m e
  | _ => 0%Q
  end.

(** The coefficient and exponent [finalise] leaves, before trailing zeros
    are removed. *)
Definition rounded (m e : Z) : Z * Z :=
  let d := Dec.digits m in
  if d <=? Dec.precision then (m, e)
  else (Dec.round_half_up m (d - Dec.precision), e + (d - Dec.precision)).

(** Rounding of a positive coefficient, expressed with [K] digits dropped,
    for any [K] at least the number [digits m - precision] of digits that
    have to go. *)
Definition round_at (m K : Z) : Z :=
  (m * 10 ^ (K - (Dec.digits m - Dec.precision)) + 5 * 10 ^ (K - 1)) / 10 ^ K.

(** The NPV formula in exact arithmetic: the sum over [y = 1 .. n] of
    [a (1 - d)^(y-1) / (1 + r)^y], less [i]. *)
Definition npv_formula (a d i : Q) (n : Z) (r : Q) : Q :=
  (fold_right Qplus 0
     (map (fun y => a * Qpower (1 - d) (y - 1) / Qpower (1 + r) y) (year_range n)) - i)%Q.

(** The formula at the figures of a call, with [r] substituted. *)
Definition residual (inputs : ROIInputs) (r : Decimal) : Q :=
  let out := calculateBatteryROI inputs in
  npv_formula (toQ (annual_net_sek out)) (toQ (degradation inputs))
              (toQ (Details.net_investment (details out))) (years inputs) (toQ r).

(** *** Further scenarios *)

(** An inverter of 5 kW, hence a cap of 3 kW, twelve peaks of 4 kW, and a
    demand price of 1.0000000000000000005 per kW and month. *)
Definition fine_price_inputs : ROIInputs :=
  {| capex_cogs := Dec.Fin 1264000 0;
     price_ex_vat := Dec.Fin 0 0;
     grant_pct := Dec.Fin 65 (-2);
     capacity_kwh := Dec.Fin 261 0;
     inverter_kw := Dec.Fin 5 0;
     dod := Dec.Fin 9 (-1);
     efficiency := Dec.Fin 92 (-2);
     pv_cycles_per_year := Dec.Fin 220 0;
     arbitrage_cycles_per_year := Dec.Fin 80 0;
     annual_pv_kwh := Dec.Fin 38726 0;
     purchase_price_sek_per_kwh := Dec.Fin 156 (-2);
     demand_price_sek_per_kw_month := Dec.Fin 10000000000000000005 (-19);
     monthly_peaks_kw := repeat (Dec.Fin 4 0) 12;
     spread_sek_per_kwh := Dec.Fin 30 (-2);
     o_and_m := Dec.Fin 5220 0;
     wacc := Dec.Fin 8 (-2);
     degradation := Dec.Fin 2 (-2);
     years := 12 |}.

(** The reference site with a system that costs nothing and no grant. *)
Definition free_system_inputs : ROIInputs :=
  scenario (Dec.Fin 0 0) (Dec.Fin 0 0) (repeat (Dec.Fin 75 0) 12) (Dec.Fin 5220 0) 12.

(** The same inputs with another [grant_pct]. *)
Definition with_grant (i : ROIInputs) (g : Decimal) : ROIInputs :=
  {| capex_cogs := capex_cogs i;
     price_ex_vat := price_ex_vat i;
     grant_pct := g;
     capacity_kwh := capacity_kwh i;
     inverter_kw := inverter_kw i;
     dod := dod i;
     efficiency := efficiency i;
     pv_cycles_per_year := pv_cycles_per_year i;
     arbitrage_cycles_per_year := arbitrage_cycles_per_year i;
     annual_pv_kwh := annual_pv_kwh i;
     purchase_price_sek_per_kwh := purchase_price_sek_per_kwh i;
     demand_price_sek_per_kw_month := demand_price_sek_per_kw_month i;
     monthly_peaks_kw := monthly_peaks_kw i;
     spread_sek_per_kwh := spread_sek_per_kwh i;
     o_and_m := o_and_m i;
     wacc := wacc i;
     degradation := degradation i;
     years := years i |}.

(** The partial sums of the demand loop. *)
Definition demand_partial_sums (inputs : ROIInputs) (peaks : list Decimal) : list Decimal :=
  map (fun n => fold_left (add_month inputs) (firstn n peaks) (Dec.ofZ 0))
      (seq 1 (length peaks)).

(** *** Properties as the specification states them *)

(** The figures the specification lists for the reference inputs. *)
Definition listed_reference_figures (r : ROIOutputs) : Prop :=
  Dec.eq (Details.pv_savings (details r)) (Dec.Fin 6041256 (-2)) = true /\
  Dec.eq (Details.demand_savings (details r)) (Dec.Fin 103320 0) = true /\
  Dec.eq (Details.arbitrage_savings (details r)) (Dec.Fin 5190048 (-3)) = true /\
  Dec.eq (annual_net_sek r) (Dec.Fin 163702608 (-3)) = true /\
  Dec.eq (Details.net_investment (details r)) (Dec.Fin 442400 0) = true /\
  exists p, payback r = Some p /\
            Dec.eq p (Dec.div (Dec.Fin 442400 0) (Dec.Fin 163702608 (-3))) = true.

(** The annual net is the exact sum of the three savings less the
    operating cost; [details.o_and_m] is meant as a copy of the input
    [o_and_m], which stands for it here. *)
Definition annual_net_is_exact_sum (inputs : ROIInputs) : Prop :=
  let r := calculateBatteryROI inputs in
  let d := details r in
  (toQ (annual_net_sek r) ==
   toQ (Details.pv_savings d) + toQ (Details.demand_savings d)
   + toQ (Details.arbitrage_savings d) - toQ (o_and_m inputs))%Q.

(** An irr that is not null, put back into the NPV formula, leaves at most
    1e-4. *)
Definition residual_within_tolerance (inputs : ROIInputs) : Prop :=
  forall v, irr (calculateBatteryROI inputs) = Some v ->
            (Qabs (residual inputs v) <= 1 # 10000)%Q.

(** Preconditions on the inputs, and a call that fails on an input that
    breaks one before it computes anything. *)
Definition in_unit_interval (x : Decimal) : bool :=
  Dec.gte x (Dec.ofZ 0) && Dec.lte x (Dec.ofZ 1).

Definition violates_precondition (inputs : ROIInputs) : Prop :=
  length (monthly_peaks_kw inputs) <> 12%nat \/
  in_unit_interval (grant_pct inputs) = false \/
  in_unit_interval (dod inputs) = false \/
  in_unit_interval (efficiency inputs) = false \/
  years inputs <= 0.

Definition fails_fast (inputs : ROIInputs) : Prop :=
  violates_precondition inputs ->
  run_calculateBatteryROI inputs = {| computed := None; completion := Throws |}.

(** Demand savings of twelve months never exceed the exact product
    12 x 0.6 x inverter_kw x demand price. *)
Definition demand_savings_within_product (inputs : ROIInputs) : Prop :=
  length (monthly_peaks_kw inputs) = 12%nat ->
  Dec.gte (inverter_kw inputs) (Dec.ofZ 0) = true ->
  Dec.gte (demand_price_sek_per_kw_month inputs) (Dec.ofZ 0) = true ->
  (toQ (Details.demand_savings (details (calculateBatteryROI inputs)))
   <= 12 * (6 # 10) * toQ (inverter_kw inputs)
      * toQ (demand_price_sek_per_kw_month inputs))%Q.

(** A strictly larger grant, all else equal, gives a strictly smaller net
    investment and no larger payback. *)
Definition larger_grant_strictly_lowers_investment (i : ROIInputs) (g : Decimal) : Prop :=
  in_unit_interval (grant_pct i) = true -> in_unit_interval g = true ->
  Dec.lt (grant_pct i) g = true ->
  let r1 := calculateBatteryROI i in
  let r2 := calculateBatteryROI (with_grant i g) in
  Dec.lt (Details.net_investment (details r2)) (Details.net_investment (details r1)) = true /\
  forall p1 p2, payback r1 = Some p1 -> payback r2 = Some p2 -> Dec.lte p2 p1 = true.

(** *** Side conditions of the amended properties *)

(** A peak that is a number or [+Infinity]. *)
Definition number_or_plus_infinity (p : Decimal) : bool :=
  match p with
  | Dec.Fin _ _ | Dec.Inf false => true
  | _ => false
  end.

(** An amount with at most [k] decimals, below 10^(18-k) in absolute
    value: [n / 10^k] for an integer [n] of at most 18 digits. *)
Definition on_grid (k : Z) (x : Decimal) : Prop :=
  Dec.isFinite x = true /\
  exists n, Z.abs n < 10 ^ 18 /\ (toQ x == F2Q n (- k))%Q.

(** The computed net investment is the exact [capex_cogs * (1 - grant)]:
    neither the subtraction nor the product lost a digit. *)
Definition net_investment_exact (capex g : Decimal) : Prop :=
  (toQ (Dec.mul capex (Dec.minus (Dec.ofZ 1) g)) == toQ capex * (1 - toQ g))%Q.

(* ================================================================== *)
(** ** Further definitions for the engine and the PDF generators *)
(* ================================================================== *)

(** The same inputs with other [monthly_peaks_kw]. *)
Definition with_peaks (i : ROIInputs) (peaks : list Decimal) : ROIInputs :=
  {| capex_cogs := capex_cogs i;
     price_ex_vat := price_ex_vat i;
     grant_pct := grant_pct i;
     capacity_kwh := capacity_kwh i;
     inverter_kw := inverter_kw i;
     dod := dod i;
     efficiency := efficiency i;
     pv_cycles_per_year := pv_cycles_per_year i;
     arbitrage_cycles_per_year := arbitrage_cycles_per_year i;
     annual_pv_kwh := annual_pv_kwh i;
     purchase_price_sek_per_kwh := purchase_price_sek_per_kwh i;
     demand_price_sek_per_kw_month := demand_price_sek_per_kw_month i;
     monthly_peaks_kw := peaks;
     spread_sek_per_kwh := spread_sek_per_kwh i;
     o_and_m := o_and_m i;
     wacc := wacc i;
     degradation := degradation i;
     years := years i |}.

(** The form in which arithmetic leaves a finite value: no trailing zero in
    the coefficient, at most [precision] digits, and zero as [0 * 10^0]. *)
Definition canonical (x : Decimal) : Prop :=
  match x with
  | Dec.Fin m e => (m = 0 /\ e = 0) \/ (m mod 10 <> 0 /\ Dec.digits m <= Dec.precision)
  | _ => True
  end.


(** The degraded net of a year, before discounting. *)
Definition degraded_net (inputs : ROIInputs) (year : Z) : Decimal :=
  Dec.mul (annual_net inputs)
          (Dec.pow (Dec.minus (Dec.ofZ 1) (degradation inputs)) (year - 1)).

(** One month at the cap. *)
Definition month_at_cap (inputs : ROIInputs) (acc : Decimal) : Decimal :=
  Dec.plus acc (Dec.mul (cap_kw inputs) (demand_price_sek_per_kw_month inputs)).

(** The reference site with no discounting. *)
Definition undiscounted_inputs : ROIInputs :=
  {| capex_cogs := Dec.Fin 1264000 0;
     price_ex_vat := Dec.Fin 0 0;
     grant_pct := Dec.Fin 65 (-2);
     capacity_kwh := Dec.Fin 261 0;
     inverter_kw := Dec.Fin 125 0;
     dod := Dec.Fin 9 (-1);
     efficiency := Dec.Fin 92 (-2);
     pv_cycles_per_year := Dec.Fin 220 0;
     arbitrage_cycles_per_year := Dec.Fin 80 0;
     annual_pv_kwh := Dec.Fin 38726 0;
     purchase_price_sek_per_kwh := Dec.Fin 156 (-2);
     demand_price_sek_per_kw_month := Dec.Fin 1148 (-1);
     monthly_peaks_kw := repeat (Dec.Fin 75 0) 12;
     spread_sek_per_kwh := Dec.Fin 30 (-2);
     o_and_m := Dec.Fin 5220 0;
     wacc := Dec.Fin 0 0;
     degradation := Dec.Fin 2 (-2);
     years := 3 |}.


(** A finite value that is not negative. *)
Definition nonneg_number (x : Decimal) : bool :=
  Dec.isFinite x && Dec.gte x (Dec.ofZ 0).

(* ------------------------------------------------------------------ *)
(** *** The appendix of the two PDF generators *)

(** [generateBatteryQuotePdf] (pdf-generator.ts) and
    [generateEnhancedQuotePdf] (pdf-print.ts) break the optional appendix
    text into lines with the same loop.  A JavaScript string is a sequence
    of UTF-16 code units, and [length] counts them. *)
Definition jsstring : Type := list N.

(** An empty string is falsy, any other string truthy. *)
Definition truthy (s : jsstring) : bool :=
  match s with [] => false | _ => true end.

(** The code units that [\s] matches in a regular expression without the
    [u] flag: WhiteSpace and LineTerminator. *)
Definition is_whitespace (c : N) : bool :=
  ((9 <=? c) && (c <=? 13) || (c =? 32) || (c =? 160) || (c =? 5760)
   || (8192 <=? c) && (c <=? 8202) || (c =? 8232) || (c =? 8233)
   || (c =? 8239) || (c =? 8287) || (c =? 12288) || (c =? 65279))%N.

(** [text.split(/\s+/)]: the pieces between the maximal runs of whitespace,
    an empty piece before a leading run and after a trailing one.  [piece]
    is the piece read so far, [in_run] tells that the unit before was
    whitespace. *)
Fixpoint split_from (text piece : jsstring) (in_run : bool) : list jsstring :=
  match text with
  | [] => [piece]
  | c :: rest =>
      if is_whitespace c then
        if in_run then split_from rest [] true
        else piece :: split_from rest [] true
      else split_from rest (piece ++ [c]) false
  end.

Definition split_whitespace (text : jsstring) : list jsstring :=
  split_from text [] false.

Definition space : N := 32.

(** One turn of [for (const w of words)]; the state is
    [(appendixLines, current)]. *)
Definition wrap_step (st : list jsstring * jsstring) (w : jsstring)
  : list jsstring * jsstring :=
  let '(appendixLines, current) := st in
  let test := current ++ (if truthy current then [space] else []) ++ w in
  if (80 <? length test)%nat then (appendixLines ++ [current], w)
  else (appendixLines, test).

(** [if (current) appendixLines.push(current)]. *)
Definition push_last (st : list jsstring * jsstring) : list jsstring :=
  let '(appendixLines, current) := st in
  if truthy current then appendixLines ++ [current] else appendixLines.

(** The lines drawn under the appendix heading; [None] is an absent
    [options] or an absent [appendixText]. *)
Definition appendixLines (appendixText : option jsstring) : list jsstring :=
  match appendixText with
  | None => []
  | Some text =>
      if truthy text
      then push_last (fold_left wrap_step (split_whitespace text) ([], []))
      else []
  end.

(** [lines.join(" ")]. *)
Fixpoint join_spaces (lines : list jsstring) : jsstring :=
  match lines with
  | [] => []
  | [line] => line
  | line :: rest => line ++ [space] ++ join_spaces rest
  end.

Definition unbroken (s : jsstring) : bool :=
  forallb (fun c => negb (is_whitespace c)) s.

(** The code units of an ASCII text. *)
Definition units (s : list Z) : jsstring := map Z.to_N s.

(** A line that fits in 80 units, or is one of [words]. *)
Definition fits_or_word (words : list jsstring) (line : jsstring) : Prop :=
  (length line <= 80)%nat \/ In line words.

(* ================================================================== *)
(** ** Facts about Decimal values *)
(* ================================================================== *)

Lemma normal_Fin m e : exists m' e', Dec.normal m e = Dec.Fin m' e'.
Proof.
  unfold Dec.normal. destruct (m =? 0); [now exists 0, 0|].
  destruct (Dec.strip _ m e) as [m' e']. now exists m', e'.
Qed.

Lemma finalise_Fin m e : exists m' e', Dec.finalise m e = Dec.Fin m' e'.
Proof.
  unfold Dec.finalise. destruct (_ <=? _); apply normal_Fin.
Qed.

Lemma isFinite_finalise m e : Dec.isFinite (Dec.finalise m e) = true.
Proof. destruct (finalise_Fin m e) as (m' & e' & ->). reflexivity. Qed.

Lemma isFinite_plus x y :
  Dec.isFinite x = true -> Dec.isFinite y = true -> Dec.isFinite (Dec.plus x y) = true.
Proof.
  destruct x, y; try discriminate. intros _ _. cbn.
  apply isFinite_finalise.
Qed.

Lemma isFinite_minus x y :
  Dec.isFinite x = true -> Dec.isFinite y = true -> Dec.isFinite (Dec.minus x y) = true.
Proof.
  destruct x, y; try discriminate. intros _ _. cbn.
  apply isFinite_finalise.
Qed.

Lemma isFinite_mul x y :
  Dec.isFinite x = true -> Dec.isFinite y = true -> Dec.isFinite (Dec.mul x y) = true.
Proof.
  destruct x, y; try discriminate. intros _ _. cbn.
  apply isFinite_finalise.
Qed.

Lemma isFinite_min x y :
  Dec.isFinite x = true -> Dec.isFinite y = true -> Dec.isFinite (Dec.min x y) = true.
Proof.
  destruct x, y; try discriminate. intros _ _. unfold Dec.min.
  now destruct (Dec.gt _ _).
Qed.

Lemma isFinite_div x y :
  Dec.isFinite x = true -> Dec.isFinite y = true -> Dec.isZero y = false ->
  Dec.isFinite (Dec.div x y) = true.
Proof.
  destruct x as [| |m1 e1], y as [| |m2 e2]; try discriminate. intros _ _.
  unfold Dec.isZero, Dec.div. intros ->.
  destruct (m1 =? 0); [reflexivity|]. apply isFinite_finalise.
Qed.

(** Nothing finite comes out of a division by zero. *)
Lemma div_by_zero x y : Dec.isZero y = true -> Dec.isFinite (Dec.div x y) = false.
Proof.
  destruct y as [| |m2 e2]; try discriminate. unfold Dec.isZero, Dec.div. intros ->.
  destruct x as [| |m1 e1]; try reflexivity. now destruct (m1 =? 0).
Qed.

(** A finite difference has finite operands. *)
Lemma minus_finite_inv x y :
  Dec.isFinite (Dec.minus x y) = true ->
  Dec.isFinite x = true /\ Dec.isFinite y = true.
Proof.
  destruct x as [|s1|m1 e1], y as [|s2|m2 e2]; unfold Dec.minus;
    try (intros _; split; reflexivity); try discriminate.
  destruct (Bool.eqb s1 s2); cbn; discriminate.
Qed.

Lemma lt_abs_finite x c : Dec.lt (Dec.abs x) c = true -> Dec.isFinite x = true.
Proof.
  destruct x as [|s|m e]; [| |reflexivity]; unfold Dec.lt; cbn.
  - discriminate.
  - destruct c as [|[]|]; discriminate.
Qed.

Lemma close_enough_finite a b :
  close_enough a b = true -> Dec.isFinite a = true /\ Dec.isFinite b = true.
Proof.
  unfold close_enough. intros H. apply lt_abs_finite in H.
  now apply minus_finite_inv.
Qed.

Lemma cmp_refl x : Dec.isNaN x = false -> Dec.cmp x x = Some Eq.
Proof.
  destruct x as [|s|m e]; [discriminate| |]; intros _; cbn.
  - now destruct s.
  - now rewrite Z.compare_refl.
Qed.

Lemma eq_refl_Dec x : Dec.isNaN x = false -> Dec.eq x x = true.
Proof. intros H. unfold Dec.eq. now rewrite cmp_refl. Qed.

Lemma gt_zero_nonzero x : Dec.gt x (Dec.ofZ 0) = true -> Dec.isZero x = false.
Proof.
  destruct x as [|s|m e]; try reflexivity. unfold Dec.gt, Dec.isZero. cbn.
  destruct (Z.eqb_spec m 0) as [->|]; [|reflexivity].
  rewrite !Z.mul_0_l. discriminate.
Qed.

Lemma lte_not_gt x y : Dec.lte x y = true -> Dec.gt x y = false.
Proof. unfold Dec.lte, Dec.gt. now destruct (Dec.cmp x y) as [[]|]. Qed.

(* ================================================================== *)
(** ** The value of a Decimal and the order of values *)
(* ================================================================== *)

Lemma pow10_pos e : (0 < Qpower (10 # 1) e)%Q.
Proof. apply Qpower_0_lt. reflexivity. Qed.

Lemma pow10_add a b :
  (Qpower (10 # 1) (a + b) == Qpower (10 # 1) a * Qpower (10 # 1) b)%Q.
Proof. apply Qpower_plus. discriminate. Qed.

Lemma pow10_Z k : 0 <= k -> (Qpower (10 # 1) k == inject_Z (10 ^ k))%Q.
Proof. intros H. symmetry. exact (Zpower_Qpower 10 k H). Qed.

Lemma pow10_le a b : a <= b -> (Qpower (10 # 1) a <= Qpower (10 # 1) b)%Q.
Proof. intros H. apply Qpower_le_compat_l; [exact H|discriminate]. Qed.

Lemma F2Q_pow10 e : (F2Q 1 e == Qpower (10 # 1) e)%Q.
Proof. unfold F2Q. ring. Qed.

Lemma F2Q_shift m e k : 0 <= k -> (F2Q (m * 10 ^ k) e == F2Q m (e + k))%Q.
Proof.
  intros H. unfold F2Q. rewrite inject_Z_mult, pow10_add, <- (pow10_Z k H). ring.
Qed.

Lemma F2Q_shift' m e k : 0 <= k -> (F2Q (m * 10 ^ k) (e - k) == F2Q m e)%Q.
Proof.
  intros H. rewrite F2Q_shift by exact H. now replace (e - k + k) with e by lia.
Qed.

Lemma F2Q_le m1 m2 e : m1 <= m2 <-> (F2Q m1 e <= F2Q m2 e)%Q.
Proof.
  unfold F2Q. rewrite Qmult_le_r by apply pow10_pos. rewrite <- Zle_Qle. reflexivity.
Qed.

Lemma F2Q_lt m1 m2 e : m1 < m2 <-> (F2Q m1 e < F2Q m2 e)%Q.
Proof.
  unfold F2Q. rewrite Qmult_lt_r by apply pow10_pos. rewrite <- Zlt_Qlt. reflexivity.
Qed.

Lemma F2Q_compare m1 m2 e : (F2Q m1 e ?= F2Q m2 e)%Q = (m1 ?= m2).
Proof.
  destruct (Z.compare_spec m1 m2) as [->|H|H].
  - apply Qeq_alt. reflexivity.
  - apply Qlt_alt. now apply F2Q_lt.
  - apply Qgt_alt. now apply F2Q_lt.
Qed.

Lemma F2Q_0 e : (F2Q 0 e == 0)%Q.
Proof. unfold F2Q. ring. Qed.

Lemma F2Q_opp m e : (F2Q (- m) e == - F2Q m e)%Q.
Proof. unfold F2Q. rewrite inject_Z_opp. ring. Qed.

Lemma F2Q_plus a b e : (F2Q (a + b) e == F2Q a e + F2Q b e)%Q.
Proof. unfold F2Q. rewrite inject_Z_plus. ring. Qed.

Lemma F2Q_minus a b e : (F2Q (a - b) e == F2Q a e - F2Q b e)%Q.
Proof. unfold F2Q, Z.sub. rewrite inject_Z_plus, inject_Z_opp. ring. Qed.

Lemma F2Q_mult m1 e1 m2 e2 : (F2Q (m1 * m2) (e1 + e2) == F2Q m1 e1 * F2Q m2 e2)%Q.
Proof. unfold F2Q. rewrite inject_Z_mult, pow10_add. ring. Qed.

Lemma F2Q_sign_pos m e : 0 < m <-> (0 < F2Q m e)%Q.
Proof. rewrite <- (F2Q_0 e). apply F2Q_lt. Qed.

Lemma F2Q_sign_nonneg m e : 0 <= m <-> (0 <= F2Q m e)%Q.
Proof. rewrite <- (F2Q_0 e). apply F2Q_le. Qed.

Lemma align_value m1 e1 m2 e2 :
  (F2Q (fst (Dec.align m1 e1 m2 e2)) (Z.min e1 e2) == F2Q m1 e1)%Q /\
  (F2Q (snd (Dec.align m1 e1 m2 e2)) (Z.min e1 e2) == F2Q m2 e2)%Q.
Proof.
  unfold Dec.align. cbn [fst snd]. split.
  - rewrite F2Q_shift by lia. now replace (Z.min e1 e2 + (e1 - Z.min e1 e2)) with e1 by lia.
  - rewrite F2Q_shift by lia. now replace (Z.min e1 e2 + (e2 - Z.min e1 e2)) with e2 by lia.
Qed.

(** Comparison of finite Decimals is comparison of their values. *)
Lemma cmp_value m1 e1 m2 e2 :
  Dec.cmp (Dec.Fin m1 e1) (Dec.Fin m2 e2) = Some (F2Q m1 e1 ?= F2Q m2 e2)%Q.
Proof.
  cbn [Dec.cmp]. destruct (align_value m1 e1 m2 e2) as [Ha Hb].
  destruct (Dec.align m1 e1 m2 e2) as [a b]. cbn [fst snd] in *.
  now rewrite <- Ha, <- Hb, F2Q_compare.
Qed.

Lemma lt_value x y :
  Dec.isFinite x = true -> Dec.isFinite y = true ->
  (Dec.lt x y = true <-> (toQ x < toQ y)%Q).
Proof.
  destruct x as [| |m1 e1], y as [| |m2 e2]; try discriminate. intros _ _.
  unfold Dec.lt. rewrite cmp_value. cbn [toQ]. rewrite Qlt_alt.
  destruct (F2Q m1 e1 ?= F2Q m2 e2)%Q; split; congruence.
Qed.

Lemma gt_value x y :
  Dec.isFinite x = true -> Dec.isFinite y = true ->
  (Dec.gt x y = true <-> (toQ y < toQ x)%Q).
Proof.
  destruct x as [| |m1 e1], y as [| |m2 e2]; try discriminate. intros _ _.
  unfold Dec.gt. rewrite cmp_value. cbn [toQ]. rewrite (Qgt_alt (F2Q m1 e1) (F2Q m2 e2)).
  destruct (F2Q m1 e1 ?= F2Q m2 e2)%Q; split; congruence.
Qed.

Lemma lte_value x y :
  Dec.isFinite x = true -> Dec.isFinite y = true ->
  (Dec.lte x y = true <-> (toQ x <= toQ y)%Q).
Proof.
  destruct x as [| |m1 e1], y as [| |m2 e2]; try discriminate. intros _ _.
  unfold Dec.lte. rewrite cmp_value. cbn [toQ]. rewrite Qle_alt.
  destruct (F2Q m1 e1 ?= F2Q m2 e2)%Q; split; congruence.
Qed.

Lemma gte_value x y :
  Dec.isFinite x = true -> Dec.isFinite y = true ->
  (Dec.gte x y = true <-> (toQ y <= toQ x)%Q).
Proof.
  destruct x as [| |m1 e1], y as [| |m2 e2]; try discriminate. intros _ _.
  unfold Dec.gte. rewrite cmp_value. cbn [toQ].
  rewrite Qle_alt, <- (Qcompare_antisym (F2Q m1 e1) (F2Q m2 e2)).
  destruct (F2Q m1 e1 ?= F2Q m2 e2)%Q; cbn [CompOpp]; split; intros H;
    try reflexivity; try discriminate. now elim H.
Qed.

(* ================================================================== *)
(** ** Digits and rounding *)
(* ================================================================== *)

Lemma digits_up_spec fuel : forall n p d,
  0 < d -> p = 10 ^ d ->
  10 ^ (d - 1) <= n < 10 ^ (d + Z.of_nat fuel) ->
  10 ^ (Dec.digits_up fuel n p d - 1) <= n < 10 ^ (Dec.digits_up fuel n p d).
Proof.
  induction fuel as [|fuel IH]; intros n p d Hd Hp Hn; cbn [Dec.digits_up].
  - now rewrite Z.add_0_r in Hn.
  - destruct (Z.ltb_spec n p) as [Hlt|Hge].
    + subst p. lia.
    + apply IH.
      * lia.
      * subst p. rewrite Z.pow_add_r by lia. change (10 ^ 1) with 10. lia.
      * replace (d + 1 - 1) with d by lia. split; [subst p; lia|].
        replace (d + 1 + Z.of_nat fuel) with (d + Z.of_nat (S fuel)) by lia. apply Hn.
Qed.

Lemma below_pow10_log2 n : 0 < n -> n < 10 ^ (1 + Z.of_nat (Z.to_nat (Z.log2 n))).
Proof.
  intros Hn. pose proof (Z.log2_nonneg n) as Hl.
  rewrite Z2Nat.id by exact Hl.
  destruct (Z.log2_spec n Hn) as [_ H]. eapply Z.lt_le_trans; [exact H|].
  replace (Z.succ (Z.log2 n)) with (1 + Z.log2 n) by lia.
  apply Z.pow_le_mono_l. lia.
Qed.

Lemma digits_spec n :
  n <> 0 -> 10 ^ (Dec.digits n - 1) <= Z.abs n < 10 ^ (Dec.digits n).
Proof.
  intros Hn. unfold Dec.digits. destruct (Z.eqb_spec n 0) as [|_]; [contradiction|].
  apply digits_up_spec; [lia|reflexivity|].
  split; [cbn; lia|]. apply below_pow10_log2. lia.
Qed.

Lemma digits_0 : Dec.digits 0 = 0.
Proof. reflexivity. Qed.

Lemma digits_pos n : n <> 0 -> 1 <= Dec.digits n.
Proof.
  intros Hn. destruct (digits_spec n Hn) as [_ H].
  destruct (Z.le_gt_cases 1 (Dec.digits n)) as [|Hlt]; [assumption|exfalso].
  assert (Hp : 10 ^ Dec.digits n <= 1).
  { destruct (Z.eq_dec (Dec.digits n) 0) as [->|Hne]; [cbn; lia|].
    rewrite Z.pow_neg_r by lia. lia. }
  lia.
Qed.

Lemma digits_unique n d : 10 ^ (d - 1) <= Z.abs n < 10 ^ d -> 0 < d -> Dec.digits n = d.
Proof.
  intros [Hlo Hhi] Hd.
  assert (Hn : n <> 0).
  { intros ->. cbn in Hlo. assert (0 < 10 ^ (d - 1)) by (apply Z.pow_pos_nonneg; lia). lia. }
  destruct (digits_spec n Hn) as [Hlo' Hhi']. pose proof (digits_pos n Hn) as Hp.
  assert (d - 1 < Dec.digits n).
  { apply (Z.pow_lt_mono_r_iff 10); [lia|lia|]. lia. }
  assert (Dec.digits n - 1 < d).
  { apply (Z.pow_lt_mono_r_iff 10); [lia|lia|]. lia. }
  lia.
Qed.

Lemma digits_opp n : Dec.digits (- n) = Dec.digits n.
Proof.
  unfold Dec.digits. rewrite Z.abs_opp.
  destruct (Z.eqb_spec n 0) as [->|Hn]; [reflexivity|].
  destruct (Z.eqb_spec (- n) 0); [lia|reflexivity].
Qed.

Lemma strip_value fuel : forall m e,
  (F2Q (fst (Dec.strip fuel m e)) (snd (Dec.strip fuel m e)) == F2Q m e)%Q.
Proof.
  induction fuel as [|fuel IH]; intros m e; cbn [Dec.strip]; [reflexivity|].
  destruct (Z.eqb_spec (m mod 10) 0) as [Hz|_]; [|reflexivity].
  rewrite IH. rewrite <- (F2Q_shift (m / 10) e 1) by lia.
  replace (m / 10 * 10 ^ 1) with m; [reflexivity|].
  pose proof (Z.div_mod m 10 ltac:(lia)). lia.
Qed.

Lemma normal_value m e : (toQ (Dec.normal m e) == F2Q m e)%Q.
Proof.
  unfold Dec.normal. destruct (Z.eqb_spec m 0) as [->|_].
  - cbn [toQ]. now rewrite !F2Q_0.
  - pose proof (strip_value (S (Z.to_nat (Z.log2 (Z.abs m)))) m e) as H.
    destruct (Dec.strip _ m e) as [m' e']. exact H.
Qed.

Lemma finalise_value m e :
  (toQ (Dec.finalise m e) == F2Q (fst (rounded m e)) (snd (rounded m e)))%Q.
Proof.
  unfold Dec.finalise, rounded. destruct (_ <=? _); apply normal_value.
Qed.

Lemma finalise_exact m e :
  Dec.digits m <= Dec.precision -> (toQ (Dec.finalise m e) == F2Q m e)%Q.
Proof.
  intros H. rewrite finalise_value. unfold rounded.
  destruct (Z.leb_spec (Dec.digits m) Dec.precision); [reflexivity|lia].
Qed.

Lemma round_half_up_opp m k : Dec.round_half_up (- m) k = - Dec.round_half_up m k.
Proof. unfold Dec.round_half_up. rewrite Z.sgn_opp, Z.abs_opp. lia. Qed.

Lemma finalise_opp m e : (toQ (Dec.finalise (- m) e) == - toQ (Dec.finalise m e))%Q.
Proof.
  rewrite !finalise_value. unfold rounded. rewrite digits_opp.
  destruct (_ <=? _); cbn [fst snd].
  - apply F2Q_opp.
  - rewrite round_half_up_opp. apply F2Q_opp.
Qed.

Lemma finalise_0 e : Dec.finalise 0 e = Dec.Fin 0 0.
Proof. reflexivity. Qed.

Lemma pow10_gt_0 k : 0 <= k -> 0 < 10 ^ k.
Proof. intros H. apply Z.pow_pos_nonneg; lia. Qed.

Lemma pow10_split a b : 0 <= a -> 0 <= b -> 10 ^ (a + b) = 10 ^ a * 10 ^ b.
Proof. intros. apply Z.pow_add_r; assumption. Qed.

Lemma rounded_round_at m e K :
  0 < m -> 1 <= K -> Dec.digits m - Dec.precision <= K ->
  (F2Q (fst (rounded m e)) (snd (rounded m e)) ==
   F2Q (round_at m K) (e + (Dec.digits m - Dec.precision)))%Q.
Proof.
  intros Hm HK Hk. unfold rounded, round_at.
  set (k := Dec.digits m - Dec.precision) in *.
  replace (Dec.digits m) with (k + Dec.precision) by (unfold k; lia).
  pose proof (pow10_gt_0 K ltac:(lia)) as HpK.
  destruct (Z.leb_spec (k + Dec.precision) Dec.precision) as [Hle|Hgt]; cbn [fst snd].
  - (* no digit to drop *)
    assert (Hk0 : k <= 0) by lia.
    replace (K - k) with (- k + K) by lia.
    rewrite pow10_split by lia.
    replace ((m * (10 ^ (- k) * 10 ^ K) + 5 * 10 ^ (K - 1)) / 10 ^ K)
      with (m * 10 ^ (- k)).
    + rewrite F2Q_shift by lia. now replace (e + k + - k) with e by lia.
    + replace (m * (10 ^ (- k) * 10 ^ K)) with (m * 10 ^ (- k) * 10 ^ K) by ring.
      rewrite Z.div_add_l by lia.
      rewrite Z.div_small; [lia|].
      assert (HK10 : 10 ^ K = 10 * 10 ^ (K - 1)).
      { replace K with (1 + (K - 1)) at 1 by lia. now rewrite pow10_split by lia. }
      pose proof (pow10_gt_0 (K - 1) ltac:(lia)). lia.
  - (* k digits dropped *)
    assert (Hk0 : 0 < k) by lia.
    replace (k + Dec.precision - Dec.precision) with k by lia.
    unfold Dec.round_half_up.
    rewrite Z.sgn_pos, Z.abs_eq, Z.mul_1_l by lia.
    replace (10 ^ K) with (10 ^ k * 10 ^ (K - k))
      by (rewrite <- pow10_split by lia; f_equal; lia).
    replace (m * 10 ^ (K - k) + 5 * 10 ^ (K - 1))
      with ((m + 5 * 10 ^ (k - 1)) * 10 ^ (K - k)).
    + rewrite Z.div_mul_cancel_r; [reflexivity| |].
      * pose proof (pow10_gt_0 k ltac:(lia)). lia.
      * pose proof (pow10_gt_0 (K - k) ltac:(lia)). lia.
    + replace (K - 1) with (k - 1 + (K - k)) by lia.
      rewrite pow10_split by lia. ring.
Qed.

(** A rounded coefficient has [precision] digits, or is [10^precision]. *)
Lemma round_at_bounds m K :
  0 < m -> 1 <= K -> Dec.digits m - Dec.precision <= K ->
  10 ^ (Dec.precision - 1) <= round_at m K <= 10 ^ Dec.precision.
Proof.
  intros Hm HK Hk. unfold round_at.
  set (k := Dec.digits m - Dec.precision) in *.
  destruct (digits_spec m ltac:(lia)) as [Hlo Hhi]. rewrite Z.abs_eq in Hlo, Hhi by lia.
  pose proof (digits_pos m ltac:(lia)) as Hd.
  pose proof (pow10_gt_0 K ltac:(lia)) as HpK.
  pose proof (pow10_gt_0 (K - k) ltac:(lia)) as HpKk.
  pose proof (pow10_gt_0 (K - 1) ltac:(lia)) as HpK1.
  assert (HK10 : 10 ^ K = 10 * 10 ^ (K - 1)).
  { replace K with (1 + (K - 1)) at 1 by lia. now rewrite pow10_split by lia. }
  (* the scaled coefficient lies in [10^(precision-1+K), 10^(precision+K)) *)
  assert (HMlo : 10 ^ (Dec.precision - 1) * 10 ^ K <= m * 10 ^ (K - k)).
  { rewrite <- pow10_split by (unfold Dec.precision; lia).
    replace (Dec.precision - 1 + K) with (Dec.digits m - 1 + (K - k)) by (unfold k; lia).
    rewrite pow10_split by lia. apply Z.mul_le_mono_nonneg_r; lia. }
  assert (HMhi : m * 10 ^ (K - k) < 10 ^ Dec.precision * 10 ^ K).
  { rewrite <- pow10_split by (unfold Dec.precision; lia).
    replace (Dec.precision + K) with (Dec.digits m + (K - k)) by (unfold k; lia).
    rewrite pow10_split by lia. apply Z.mul_lt_mono_pos_r; lia. }
  split.
  - apply Z.div_le_lower_bound; [lia|]. lia.
  - apply Z.lt_succ_r. apply Z.div_lt_upper_bound; [lia|]. lia.
Qed.

Lemma finalise_round_at m e K :
  0 < m -> 1 <= K -> Dec.digits m - Dec.precision <= K ->
  (toQ (Dec.finalise m e) ==
   F2Q (round_at m K) (e + (Dec.digits m - Dec.precision)))%Q.
Proof. intros. rewrite finalise_value. now apply rounded_round_at. Qed.

(** Rounding keeps a positive value within its decade, ends included. *)
Lemma finalise_decade m e :
  0 < m ->
  (Qpower (10 # 1) (Dec.digits m + e - 1) <= toQ (Dec.finalise m e)
   <= Qpower (10 # 1) (Dec.digits m + e))%Q.
Proof.
  intros Hm.
  set (K := Z.max 1 (Dec.digits m - Dec.precision)).
  rewrite (finalise_round_at m e K) by (unfold K; lia).
  destruct (round_at_bounds m K Hm) as [Hlo Hhi]; [unfold K; lia..|].
  set (X := e + (Dec.digits m - Dec.precision)).
  split.
  - rewrite <- F2Q_pow10.
    rewrite <- (F2Q_shift' 1 (Dec.digits m + e - 1) (Dec.precision - 1))
      by (unfold Dec.precision; lia).
    replace (Dec.digits m + e - 1 - (Dec.precision - 1)) with X by (unfold X; lia).
    apply F2Q_le. lia.
  - rewrite <- (F2Q_pow10 (Dec.digits m + e)).
    rewrite <- (F2Q_shift' 1 (Dec.digits m + e) Dec.precision)
      by (unfold Dec.precision; lia).
    replace (Dec.digits m + e - Dec.precision) with X by (unfold X; lia).
    apply F2Q_le. lia.
Qed.

(** A positive value lies in the decade its digits and exponent give. *)
Lemma value_decade m e :
  0 < m ->
  (Qpower (10 # 1) (Dec.digits m + e - 1) <= F2Q m e
   < Qpower (10 # 1) (Dec.digits m + e))%Q.
Proof.
  intros Hm.
  destruct (digits_spec m ltac:(lia)) as [Hlo Hhi]. rewrite Z.abs_eq in Hlo, Hhi by lia.
  pose proof (digits_pos m ltac:(lia)) as Hd.
  split.
  - rewrite <- F2Q_pow10.
    rewrite <- (F2Q_shift' 1 (Dec.digits m + e - 1) (Dec.digits m - 1)) by lia.
    replace (Dec.digits m + e - 1 - (Dec.digits m - 1)) with e by lia.
    apply F2Q_le. lia.
  - rewrite <- (F2Q_pow10 (Dec.digits m + e)).
    rewrite <- (F2Q_shift' 1 (Dec.digits m + e) (Dec.digits m)) by lia.
    replace (Dec.digits m + e - Dec.digits m) with e by lia.
    apply F2Q_lt. lia.
Qed.

Lemma decade_mono m1 e1 m2 e2 :
  0 < m1 -> 0 < m2 -> (F2Q m1 e1 <= F2Q m2 e2)%Q ->
  Dec.digits m1 + e1 <= Dec.digits m2 + e2.
Proof.
  intros H1 H2 Hle.
  destruct (value_decade m1 e1 H1) as [Hlo _].
  destruct (value_decade m2 e2 H2) as [_ Hhi].
  assert (Hlt : (Qpower (10 # 1) (Dec.digits m1 + e1 - 1) <
                 Qpower (10 # 1) (Dec.digits m2 + e2))%Q).
  { eapply Qle_lt_trans; [exact Hlo|]. eapply Qle_lt_trans; [exact Hle|exact Hhi]. }
  apply Qpower_lt_compat_l_inv in Hlt; [lia|reflexivity].
Qed.

(** Rounding is monotone on positive values. *)
Lemma finalise_mono_pos m1 e1 m2 e2 :
  0 < m1 -> 0 < m2 -> (F2Q m1 e1 <= F2Q m2 e2)%Q ->
  (toQ (Dec.finalise m1 e1) <= toQ (Dec.finalise m2 e2))%Q.
Proof.
  intros H1 H2 Hle.
  pose proof (decade_mono m1 e1 m2 e2 H1 H2 Hle) as HD.
  destruct (Z.eq_dec (Dec.digits m1 + e1) (Dec.digits m2 + e2)) as [Heq|Hne].
  - (* same decade: both are rounded on the same grid *)
    set (k1 := Dec.digits m1 - Dec.precision).
    set (k2 := Dec.digits m2 - Dec.precision).
    set (K := Z.max 1 (Z.max k1 k2)).
    rewrite (finalise_round_at m1 e1 K), (finalise_round_at m2 e2 K)
      by (unfold K, k1, k2; lia).
    fold k1 k2. replace (e2 + k2) with (e1 + k1) by (unfold k1, k2; lia).
    apply F2Q_le. unfold round_at. fold k1 k2.
    apply Z.div_le_mono; [apply pow10_gt_0; unfold K; lia|].
    apply Z.add_le_mono_r.
    apply (F2Q_le _ _ (e1 + k1 - K)).
    rewrite (F2Q_shift m1), (F2Q_shift m2) by (unfold K; lia).
    replace (e1 + k1 - K + (K - k1)) with e1 by lia.
    replace (e1 + k1 - K + (K - k2)) with e2 by (unfold k1, k2 in *; lia).
    exact Hle.
  - (* different decades: a power of ten lies between the results *)
    destruct (finalise_decade m1 e1 H1) as [_ Hhi].
    destruct (finalise_decade m2 e2 H2) as [Hlo _].
    eapply Qle_trans; [exact Hhi|]. eapply Qle_trans; [|exact Hlo].
    apply pow10_le. lia.
Qed.

Lemma finalise_nonneg m e : 0 <= m -> (0 <= toQ (Dec.finalise m e))%Q.
Proof.
  intros Hm. destruct (Z.eq_dec m 0) as [->|Hne].
  - rewrite finalise_0. cbn [toQ]. rewrite F2Q_0. apply Qle_refl.
  - destruct (finalise_decade m e ltac:(lia)) as [Hlo _].
    eapply Qle_trans; [|exact Hlo]. apply Qlt_le_weak, pow10_pos.
Qed.

Lemma finalise_nonpos m e : m <= 0 -> (toQ (Dec.finalise m e) <= 0)%Q.
Proof.
  intros Hm. replace m with (- - m) by lia. rewrite finalise_opp.
  pose proof (finalise_nonneg (- m) e ltac:(lia)). lra.
Qed.

(** Rounding to [precision] significant digits is monotone. *)
Lemma finalise_mono m1 e1 m2 e2 :
  (F2Q m1 e1 <= F2Q m2 e2)%Q ->
  (toQ (Dec.finalise m1 e1) <= toQ (Dec.finalise m2 e2))%Q.
Proof.
  intros Hle.
  destruct (Z.lt_trichotomy m1 0) as [H1|[->|H1]].
  - destruct (Z.le_gt_cases 0 m2) as [H2|H2].
    + pose proof (finalise_nonpos m1 e1 ltac:(lia)).
      pose proof (finalise_nonneg m2 e2 H2). lra.
    + replace m1 with (- - m1) by lia. replace m2 with (- - m2) by lia.
      rewrite (finalise_opp (- m1)), (finalise_opp (- m2)).
      apply Qopp_le_compat. apply finalise_mono_pos; [lia|lia|].
      rewrite !F2Q_opp. lra.
  - assert (H2 : 0 <= m2).
    { apply (F2Q_sign_nonneg m2 e2). rewrite F2Q_0 in Hle. exact Hle. }
    rewrite finalise_0. cbn [toQ]. rewrite F2Q_0. now apply finalise_nonneg.
  - assert (H2 : 0 < m2).
    { apply (F2Q_sign_pos m2 e2). apply (F2Q_sign_pos m1 e1) in H1. lra. }
    now apply finalise_mono_pos.
Qed.

(** Sums, differences and products are the rounded exact results. *)
Lemma plus_finalise m1 e1 m2 e2 :
  exists m e, Dec.plus (Dec.Fin m1 e1) (Dec.Fin m2 e2) = Dec.finalise m e /\
              (F2Q m e == F2Q m1 e1 + F2Q m2 e2)%Q.
Proof.
  cbn [Dec.plus]. destruct (align_value m1 e1 m2 e2) as [Ha Hb].
  destruct (Dec.align m1 e1 m2 e2) as [a b]. cbn [fst snd] in *.
  exists (a + b), (Z.min e1 e2). split; [reflexivity|].
  now rewrite F2Q_plus, Ha, Hb.
Qed.

Lemma minus_finalise m1 e1 m2 e2 :
  exists m e, Dec.minus (Dec.Fin m1 e1) (Dec.Fin m2 e2) = Dec.finalise m e /\
              (F2Q m e == F2Q m1 e1 - F2Q m2 e2)%Q.
Proof.
  cbn [Dec.minus]. destruct (align_value m1 e1 m2 e2) as [Ha Hb].
  destruct (Dec.align m1 e1 m2 e2) as [a b]. cbn [fst snd] in *.
  exists (a - b), (Z.min e1 e2). split; [reflexivity|].
  now rewrite F2Q_minus, Ha, Hb.
Qed.

Lemma mul_finalise m1 e1 m2 e2 :
  exists m e, Dec.mul (Dec.Fin m1 e1) (Dec.Fin m2 e2) = Dec.finalise m e /\
              (F2Q m e == F2Q m1 e1 * F2Q m2 e2)%Q.
Proof.
  exists (m1 * m2), (e1 + e2). split; [reflexivity|apply F2Q_mult].
Qed.

Lemma plus_mono x1 y1 x2 y2 :
  Dec.isFinite x1 = true -> Dec.isFinite y1 = true ->
  Dec.isFinite x2 = true -> Dec.isFinite y2 = true ->
  (toQ x1 + toQ y1 <= toQ x2 + toQ y2)%Q ->
  (toQ (Dec.plus x1 y1) <= toQ (Dec.plus x2 y2))%Q.
Proof.
  destruct x1 as [| |a1 b1], y1 as [| |c1 d1], x2 as [| |a2 b2], y2 as [| |c2 d2];
    try discriminate. intros _ _ _ _. cbn [toQ]. intros H.
  destruct (plus_finalise a1 b1 c1 d1) as (m & e & -> & Hv).
  destruct (plus_finalise a2 b2 c2 d2) as (m' & e' & -> & Hv').
  apply finalise_mono. now rewrite Hv, Hv'.
Qed.

Lemma minus_mono x1 y1 x2 y2 :
  Dec.isFinite x1 = true -> Dec.isFinite y1 = true ->
  Dec.isFinite x2 = true -> Dec.isFinite y2 = true ->
  (toQ x1 - toQ y1 <= toQ x2 - toQ y2)%Q ->
  (toQ (Dec.minus x1 y1) <= toQ (Dec.minus x2 y2))%Q.
Proof.
  destruct x1 as [| |a1 b1], y1 as [| |c1 d1], x2 as [| |a2 b2], y2 as [| |c2 d2];
    try discriminate. intros _ _ _ _. cbn [toQ]. intros H.
  destruct (minus_finalise a1 b1 c1 d1) as (m & e & -> & Hv).
  destruct (minus_finalise a2 b2 c2 d2) as (m' & e' & -> & Hv').
  apply finalise_mono. now rewrite Hv, Hv'.
Qed.

Lemma mul_mono x1 y1 x2 y2 :
  Dec.isFinite x1 = true -> Dec.isFinite y1 = true ->
  Dec.isFinite x2 = true -> Dec.isFinite y2 = true ->
  (toQ x1 * toQ y1 <= toQ x2 * toQ y2)%Q ->
  (toQ (Dec.mul x1 y1) <= toQ (Dec.mul x2 y2))%Q.
Proof.
  destruct x1 as [| |a1 b1], y1 as [| |c1 d1], x2 as [| |a2 b2], y2 as [| |c2 d2];
    try discriminate. intros _ _ _ _. cbn [toQ]. intros H.
  destruct (mul_finalise a1 b1 c1 d1) as (m & e & -> & Hv).
  destruct (mul_finalise a2 b2 c2 d2) as (m' & e' & -> & Hv').
  apply finalise_mono. now rewrite Hv, Hv'.
Qed.

(** Results of nonnegative exact value are nonnegative. *)
Lemma finalise_nonneg_value m e : (0 <= F2Q m e)%Q -> (0 <= toQ (Dec.finalise m e))%Q.
Proof. intros H. apply finalise_nonneg. now apply (F2Q_sign_nonneg m e). Qed.

Lemma minus_nonneg x y :
  Dec.isFinite x = true -> Dec.isFinite y = true ->
  (toQ y <= toQ x)%Q -> (0 <= toQ (Dec.minus x y))%Q.
Proof.
  destruct x as [| |a b], y as [| |c d]; try discriminate. intros _ _. cbn [toQ]. intros H.
  destruct (minus_finalise a b c d) as (m & e & -> & Hv).
  apply finalise_nonneg_value. rewrite Hv. lra.
Qed.

Lemma mul_nonneg x y :
  Dec.isFinite x = true -> Dec.isFinite y = true ->
  (0 <= toQ x)%Q -> (0 <= toQ y)%Q -> (0 <= toQ (Dec.mul x y))%Q.
Proof.
  destruct x as [| |a b], y as [| |c d]; try discriminate. intros _ _. cbn [toQ]. intros Hx Hy.
  destruct (mul_finalise a b c d) as (m & e & -> & Hv).
  apply finalise_nonneg_value. rewrite Hv. now apply Qmult_le_0_compat.
Qed.

(** When the exact result fits in [precision] digits nothing is lost; the
    converse way to say it: an operation is exact when its result has the
    exact value. *)
Lemma min_le_r x c :
  Dec.isFinite x = true -> Dec.isFinite c = true ->
  Dec.isFinite (Dec.min x c) = true /\ (toQ (Dec.min x c) <= toQ c)%Q.
Proof.
  intros Hx Hc. split; [now apply isFinite_min|].
  pose proof (gt_value x c Hx Hc) as Hgt.
  destruct x as [| |a b], c as [| |c d]; try discriminate. unfold Dec.min.
  destruct (Dec.gt (Dec.Fin a b) (Dec.Fin c d)) eqn:E.
  - apply Qle_refl.
  - apply Qnot_lt_le. intros Hlt. apply Hgt in Hlt. congruence.
Qed.

(* ================================================================== *)
(** ** Division *)
(* ================================================================== *)

(** Taking the integer quotient with more digits than needed does not
    change the rounded quotient. *)
Lemma div_fin_scale m1 m2 E s s' :
  0 < m1 -> 0 < m2 -> 0 <= s ->
  Dec.precision + 1 + Dec.digits m2 - Dec.digits m1 <= s -> s <= s' ->
  Dec.finalise (m1 * 10 ^ s / m2) (E - s) = Dec.finalise (m1 * 10 ^ s' / m2) (E - s').
Proof.
  intros H1 H2 Hs0 Hs Hss.
  set (c := s' - s). set (N := m1 * 10 ^ s).
  assert (HN' : m1 * 10 ^ s' = N * 10 ^ c).
  { unfold N, c. replace s' with (s + (s' - s)) at 1 by lia.
    rewrite pow10_split by lia. ring. }
  rewrite HN'. set (q := N / m2). set (q' := N * 10 ^ c / m2).
  pose proof (pow10_gt_0 c ltac:(unfold c; lia)) as Hpc.
  destruct (digits_spec m1 ltac:(lia)) as [Hlo1 _]. rewrite Z.abs_eq in Hlo1 by lia.
  destruct (digits_spec m2 ltac:(lia)) as [_ Hhi2]. rewrite Z.abs_eq in Hhi2 by lia.
  pose proof (digits_pos m1 ltac:(lia)) as Hd1.
  pose proof (digits_pos m2 ltac:(lia)) as Hd2.
  (* the quotient has more than [precision] digits *)
  assert (Hq : 10 ^ Dec.precision <= q).
  { unfold q. apply Z.div_le_lower_bound; [lia|].
    assert (10 ^ (Dec.precision + Dec.digits m2) <= N).
    { unfold N. eapply Z.le_trans.
      - apply (Z.pow_le_mono_r 10 _ (Dec.digits m1 - 1 + s)); lia.
      - rewrite pow10_split by lia. apply Z.mul_le_mono_nonneg_r; [|lia].
        apply Z.lt_le_incl, pow10_gt_0. lia. }
    rewrite pow10_split in H by (unfold Dec.precision; lia).
    pose proof (pow10_gt_0 Dec.precision ltac:(unfold Dec.precision; lia)). nia. }
  assert (Hqq : q = q' / 10 ^ c).
  { unfold q, q'. rewrite Z.div_div by lia. now rewrite Z.div_mul_cancel_r by lia. }
  assert (Hq0 : 0 < q) by (pose proof (pow10_gt_0 Dec.precision ltac:(unfold Dec.precision; lia)); lia).
  destruct (digits_spec q ltac:(lia)) as [Hloq Hhiq]. rewrite Z.abs_eq in Hloq, Hhiq by lia.
  pose proof (digits_pos q ltac:(lia)) as Hdq.
  assert (Hdq20 : Dec.precision < Dec.digits q).
  { apply (Z.pow_lt_mono_r_iff 10); lia. }
  assert (Hq'lo : q * 10 ^ c <= q').
  { rewrite Hqq, Z.mul_comm. apply Z.mul_div_le. lia. }
  assert (Hq'hi : q' < (q + 1) * 10 ^ c).
  { rewrite Hqq. rewrite (Z.mul_comm _ (10 ^ c)).
    replace (q' / 10 ^ c + 1) with (Z.succ (q' / 10 ^ c)) by lia.
    apply Z.mul_succ_div_gt. lia. }
  assert (Hq'0 : 0 < q') by nia.
  assert (Hdq' : Dec.digits q' = Dec.digits q + c).
  { apply digits_unique; [|unfold c; lia]. rewrite Z.abs_eq by lia.
    replace (Dec.digits q + c - 1) with (Dec.digits q - 1 + c) by lia.
    rewrite !pow10_split by (unfold c; lia). split; nia. }
  unfold Dec.finalise. rewrite Hdq'.
  destruct (Z.leb_spec (Dec.digits q) Dec.precision) as [|_]; [lia|].
  destruct (Z.leb_spec (Dec.digits q + c) Dec.precision) as [|_]; [unfold c in *; lia|].
  set (k := Dec.digits q - Dec.precision).
  replace (Dec.digits q + c - Dec.precision) with (k + c) by (unfold k; lia).
  f_equal; [|unfold c; lia].
  unfold Dec.round_half_up. rewrite !Z.sgn_pos, !Z.abs_eq, !Z.mul_1_l by lia.
  pose proof (pow10_gt_0 k ltac:(unfold k; lia)) as Hpk.
  replace (10 ^ (k + c)) with (10 ^ c * 10 ^ k)
    by (rewrite <- pow10_split by (unfold k, c; lia); f_equal; lia).
  rewrite <- Z.div_div by lia.
  replace (k + c - 1) with (k - 1 + c) by lia.
  rewrite pow10_split by (unfold k, c; lia).
  replace (q' + 5 * (10 ^ (k - 1) * 10 ^ c)) with (q' + 5 * 10 ^ (k - 1) * 10 ^ c) by ring.
  rewrite Z.div_add by lia. now rewrite <- Hqq.
Qed.

(** Division by a positive value is monotone on positive values. *)
Lemma div_mono_pos m1 e1 m1' e1' m2 e2 :
  0 < m1 -> 0 < m1' -> 0 < m2 -> (F2Q m1 e1 <= F2Q m1' e1')%Q ->
  (toQ (Dec.div (Dec.Fin m1 e1) (Dec.Fin m2 e2))
   <= toQ (Dec.div (Dec.Fin m1' e1') (Dec.Fin m2 e2)))%Q.
Proof.
  intros H1 H1' H2 Hle. unfold Dec.div.
  destruct (Z.eqb_spec m2 0); [lia|].
  destruct (Z.eqb_spec m1 0); [lia|]. destruct (Z.eqb_spec m1' 0); [lia|].
  unfold Dec.div_fin. rewrite !Z.sgn_pos, !Z.abs_eq, !Z.mul_1_l by lia.
  set (s := Z.max 0 (Dec.precision + 1 + Dec.digits m2 - Dec.digits m1)).
  set (s' := Z.max 0 (Dec.precision + 1 + Dec.digits m2 - Dec.digits m1')).
  set (emin := Z.min e1 e1'). set (S := Z.max s s').
  rewrite (div_fin_scale m1 m2 (e1 - e2) s (e1 - emin + S))
    by (unfold s, S, emin; lia).
  rewrite (div_fin_scale m1' m2 (e1' - e2) s' (e1' - emin + S))
    by (unfold s', S, emin; lia).
  replace (e1 - e2 - (e1 - emin + S)) with (emin - e2 - S) by lia.
  replace (e1' - e2 - (e1' - emin + S)) with (emin - e2 - S) by lia.
  apply finalise_mono. apply F2Q_le. apply Z.div_le_mono; [lia|].
  rewrite !pow10_split by (unfold S, s, emin; lia). rewrite !Z.mul_assoc.
  apply Z.mul_le_mono_nonneg_r; [apply Z.lt_le_incl, pow10_gt_0; unfold S, s; lia|].
  apply (F2Q_le _ _ emin).
  rewrite !F2Q_shift by (unfold emin; lia).
  replace (emin + (e1 - emin)) with e1 by lia.
  replace (emin + (e1' - emin)) with e1' by lia. exact Hle.
Qed.

Lemma div_fin_nonneg m1 e1 m2 e2 :
  0 < m1 -> 0 < m2 -> (0 <= toQ (Dec.div_fin m1 e1 m2 e2))%Q.
Proof.
  intros H1 H2. unfold Dec.div_fin. rewrite !Z.sgn_pos, !Z.abs_eq, !Z.mul_1_l by lia.
  apply finalise_nonneg. apply Z.div_pos; [|lia].
  apply Z.mul_nonneg_nonneg; [lia|]. apply Z.pow_nonneg. lia.
Qed.

(** Division by a positive value is monotone on non-negative values. *)
Lemma div_mono_nonneg x x' y :
  Dec.isFinite x = true -> Dec.isFinite x' = true -> Dec.isFinite y = true ->
  (0 <= toQ x)%Q -> (toQ x <= toQ x')%Q -> (0 < toQ y)%Q ->
  (toQ (Dec.div x y) <= toQ (Dec.div x' y))%Q.
Proof.
  destruct x as [| |m1 e1], x' as [| |m1' e1'], y as [| |m2 e2]; try discriminate.
  intros _ _ _. cbn [toQ]. intros H0 Hle Hy.
  apply F2Q_sign_pos in Hy. apply F2Q_sign_nonneg in H0.
  destruct (Z.eq_dec m1 0) as [->|Hne].
  - assert (H0' : 0 <= m1').
    { apply (F2Q_sign_nonneg m1' e1'). rewrite F2Q_0 in Hle. exact Hle. }
    unfold Dec.div. destruct (Z.eqb_spec m2 0); [lia|]. cbn [Z.eqb toQ].
    rewrite F2Q_0.
    destruct (Z.eqb_spec m1' 0); [cbn [toQ]; rewrite F2Q_0; apply Qle_refl|].
    apply div_fin_nonneg; lia.
  - assert (H1 : 0 < m1) by lia.
    assert (H1' : 0 < m1').
    { apply (F2Q_sign_pos m1' e1'). apply (F2Q_sign_pos m1 e1) in H1. lra. }
    now apply div_mono_pos.
Qed.

(* ================================================================== *)
(** ** Facts about the Newton search *)
(* ================================================================== *)

Section Search.

Variable inputs : ROIInputs.







(** A guess that is not finite stays so, and never passes the test. *)
Lemma step_not_finite g :
  Dec.isFinite g = false -> Dec.isFinite (newGuess inputs g) = false.
Proof.
  intros Hg. destruct (Dec.isFinite (newGuess inputs g)) eqn:E; [|reflexivity].
  apply minus_finite_inv in E. destruct E as [E _]. congruence.
Qed.

Lemma loop_not_finite n g : Dec.isFinite g = false -> newton_loop inputs n g = None.
Proof.
  revert g. induction n as [|n IH]; intros g Hg; [reflexivity|].
  cbn [newton_loop]. destruct (close_enough (newGuess inputs g) g) eqn:Hc.
  - apply close_enough_finite in Hc. destruct Hc. congruence.
  - apply IH. now apply step_not_finite.
Qed.

(** A zero derivative makes the next guess infinite or NaN. *)
Lemma zero_derivative_step g :
  Dec.isZero (derivative inputs g) = true -> Dec.isFinite (newGuess inputs g) = false.
Proof.
  intros Hz. destruct (Dec.isFinite (newGuess inputs g)) eqn:E; [|reflexivity].
  apply minus_finite_inv in E. destruct E as [_ E].
  now rewrite div_by_zero in E.
Qed.

Lemma zero_derivative_loop n g :
  Dec.isZero (derivative inputs g) = true -> newton_loop inputs n g = None.
Proof.
  intros Hz. destruct n as [|n]; [reflexivity|]. cbn [newton_loop].
  pose proof (zero_derivative_step g Hz) as Hs.
  destruct (close_enough (newGuess inputs g) g) eqn:Hc.
  - apply close_enough_finite in Hc. destruct Hc. congruence.
  - now apply loop_not_finite.
Qed.


End Search.

Lemma year_range_nonpos n : n <= 0 -> year_range n = [].
Proof.
  intros H. unfold year_range. replace (Z.to_nat n) with 0%nat by lia. reflexivity.
Qed.

(* ================================================================== *)
(** ** The reference scenario *)
(* ================================================================== *)

(** C1, as stated, fails: on the reference inputs the arbitrage savings are
    not 5190.048 (usable energy is 261 x 0.9 x 0.92 = 216.108 kWh, not
    216.252), so the listed figures are not what the function returns. *)
Lemma reference_figures_not_as_listed :
  ~ listed_reference_figures (calculateBatteryROI reference_inputs).
Proof.
  intros (_ & _ & H & _). revert H. field_of_result. vm_compute. discriminate.
Qed.

(** C1 (amended): on the reference inputs the function returns
    pv_savings = 60412.56, demand_savings = 103320,
    arbitrage_savings = 5186.592, annual_net_sek = 163699.152,
    net_investment = 442400 and the payback 442400 / 163699.152 rounded to
    20 significant digits, 2.7025185811591742393. *)
Theorem reference_figures :
  let r := calculateBatteryROI reference_inputs in
  usable reference_inputs = Dec.Fin 216108 (-3) /\
  Details.pv_savings (details r) = Dec.Fin 6041256 (-2) /\
  Dec.eq (Details.demand_savings (details r)) (Dec.Fin 103320 0) = true /\
  Details.arbitrage_savings (details r) = Dec.Fin 5186592 (-3) /\
  annual_net_sek r = Dec.Fin 163699152 (-3) /\
  Dec.eq (Details.net_investment (details r)) (Dec.Fin 442400 0) = true /\
  payback r = Some (Dec.div (Dec.Fin 442400 0) (Dec.Fin 163699152 (-3))) /\
  payback r = Some (Dec.Fin 27025185811591742393 (-19)).
Proof.
  cbv zeta. field_of_result. repeat split; vm_compute; reflexivity.
Qed.

(* ================================================================== *)
(** ** Annual net and payback *)
(* ================================================================== *)

(** A result of at most 20 digits is not rounded, however it is written. *)
Lemma finalise_exact_value m e n k :
  Z.abs n < 10 ^ 20 -> (F2Q m e == F2Q n k)%Q ->
  (toQ (Dec.finalise m e) == F2Q m e)%Q.
Proof.
  intros Hn Hv.
  assert (Hd : Dec.digits n <= Dec.precision).
  { unfold Dec.precision. destruct (Z.eq_dec n 0) as [->|Hn0]; [now rewrite digits_0|].
    destruct (digits_spec n Hn0) as [Hlo _].
    destruct (Z.le_gt_cases (Dec.digits n) 20) as [|Hgt]; [assumption|exfalso].
    assert (10 ^ 20 <= 10 ^ (Dec.digits n - 1)) by (apply Z.pow_le_mono_r; lia).
    lia. }
  pose proof (finalise_exact n k Hd) as Hnk.
  apply Qle_antisym.
  - rewrite Hv, <- Hnk. apply finalise_mono. rewrite Hv. apply Qle_refl.
  - rewrite Hv, <- Hnk. apply finalise_mono. rewrite Hv. apply Qle_refl.
Qed.

Lemma plus_exact x y n k :
  Dec.isFinite x = true -> Dec.isFinite y = true ->
  Z.abs n < 10 ^ 20 -> (toQ x + toQ y == F2Q n k)%Q ->
  Dec.isFinite (Dec.plus x y) = true /\ (toQ (Dec.plus x y) == toQ x + toQ y)%Q.
Proof.
  destruct x as [| |m1 e1]; try discriminate. destruct y as [| |m2 e2]; try discriminate.
  intros _ _ Hn Hv. cbn [toQ] in Hv.
  destruct (plus_finalise m1 e1 m2 e2) as (m & e & -> & Hme).
  split; [apply isFinite_finalise|].
  cbn [toQ]. rewrite <- Hme. apply (finalise_exact_value m e n k Hn).
  now rewrite Hme.
Qed.

Lemma minus_exact x y n k :
  Dec.isFinite x = true -> Dec.isFinite y = true ->
  Z.abs n < 10 ^ 20 -> (toQ x - toQ y == F2Q n k)%Q ->
  Dec.isFinite (Dec.minus x y) = true /\ (toQ (Dec.minus x y) == toQ x - toQ y)%Q.
Proof.
  destruct x as [| |m1 e1]; try discriminate. destruct y as [| |m2 e2]; try discriminate.
  intros _ _ Hn Hv. cbn [toQ] in Hv.
  destruct (minus_finalise m1 e1 m2 e2) as (m & e & -> & Hme).
  split; [apply isFinite_finalise|].
  cbn [toQ]. rewrite <- Hme. apply (finalise_exact_value m e n k Hn).
  now rewrite Hme.
Qed.

Lemma tiny_cost_figures :
  let r := calculateBatteryROI tiny_cost_inputs in
  annual_net_sek r = Dec.Fin 168919152 (-3) /\
  Details.pv_savings (details r) = Dec.Fin 6041256 (-2) /\
  Details.demand_savings (details r) = Dec.Fin 10332 1 /\
  Details.arbitrage_savings (details r) = Dec.Fin 5186592 (-3).
Proof. cbv zeta. field_of_result. repeat split; vm_compute; reflexivity. Qed.

(** C2, as stated, fails: with an operating cost of 1e-17 the exact sum
    168919.15199999999999999 has 23 digits, and the annual net computed is
    168919.152. *)
Lemma exact_sum_fails_beyond_20_digits : ~ annual_net_is_exact_sum tiny_cost_inputs.
Proof.
  unfold annual_net_is_exact_sum. cbv zeta.
  destruct tiny_cost_figures as (-> & -> & -> & ->).
  vm_compute. discriminate.
Qed.

(** C2 (amended): when the three savings and the operating cost are
    amounts of at most k decimals below 10^(18-k), no sum needs more than
    20 digits, and the annual net computed is exactly pv_savings +
    demand_savings + arbitrage_savings - o_and_m. *)
Theorem annual_net_is_sum_on_grid (inputs : ROIInputs) (k : Z) :
  let d := details (calculateBatteryROI inputs) in
  on_grid k (Details.pv_savings d) ->
  on_grid k (Details.demand_savings d) ->
  on_grid k (Details.arbitrage_savings d) ->
  on_grid k (o_and_m inputs) ->
  annual_net_is_exact_sum inputs.
Proof.
  unfold annual_net_is_exact_sum. cbv zeta. field_of_result.
  intros (Hf1 & n1 & Hn1 & Hv1) (Hf2 & n2 & Hn2 & Hv2)
         (Hf3 & n3 & Hn3 & Hv3) (Hf4 & n4 & Hn4 & Hv4).
  unfold annual_net.
  destruct (plus_exact (pv_savings inputs) (demand_savings inputs) (n1 + n2) (- k))
    as [Hs1 He1]; try assumption; [lia| |].
  { rewrite Hv1, Hv2, F2Q_plus. reflexivity. }
  destruct (plus_exact (Dec.plus (pv_savings inputs) (demand_savings inputs))
                       (arbitrage_savings inputs) (n1 + n2 + n3) (- k))
    as [Hs2 He2]; try assumption; [lia| |].
  { rewrite He1, Hv1, Hv2, Hv3, !F2Q_plus. reflexivity. }
  destruct (minus_exact (Dec.plus (Dec.plus (pv_savings inputs) (demand_savings inputs))
                                  (arbitrage_savings inputs))
                        (o_and_m inputs) (n1 + n2 + n3 - n4) (- k))
    as [_ He3]; try assumption; [lia| |].
  { rewrite He2, He1, Hv1, Hv2, Hv3, Hv4, F2Q_minus, !F2Q_plus. reflexivity. }
  rewrite He3, He2, He1. reflexivity.
Qed.

Lemma annual_net_is_sum_on_grid_witness : annual_net_is_exact_sum reference_inputs.
Proof.
  apply (annual_net_is_sum_on_grid reference_inputs 3); field_of_result.
  - split; [reflexivity|]. exists 60412560. split; [lia|vm_compute; reflexivity].
  - split; [reflexivity|]. exists 103320000. split; [lia|vm_compute; reflexivity].
  - split; [reflexivity|]. exists 5186592. split; [lia|vm_compute; reflexivity].
  - split; [reflexivity|]. exists 5220000. split; [lia|vm_compute; reflexivity].
Defined.

(** No payback without a positive annual net. *)
Lemma nonpositive_no_payback (inputs : ROIInputs) :
  Dec.lte (annual_net inputs) (Dec.ofZ 0) = true -> payback_of inputs = None.
Proof.
  intros H. unfold payback_of. now rewrite (lte_not_gt _ _ H).
Qed.

(** The call of [clone] ends every call. *)
Lemma every_call_raises (inputs : ROIInputs) : call_calculateBatteryROI inputs = Throws.
Proof. reflexivity. Qed.

(** C3: on the reference site with an operating cost of 200 000 the annual
    net is negative and the payback computed is null, as the claim asks;
    the call then ends in the TypeError of its return statement, not in a
    result that carries the null. *)
Theorem unattainable_payback_raises :
  Dec.lte (annual_net_sek (calculateBatteryROI loss_making_inputs)) (Dec.ofZ 0) = true /\
  payback (calculateBatteryROI loss_making_inputs) = None /\
  call_calculateBatteryROI loss_making_inputs = Throws.
Proof.
  assert (H : Dec.lte (annual_net loss_making_inputs) (Dec.ofZ 0) = true)
    by (vm_compute; reflexivity).
  split; [exact H|]. split; [|reflexivity].
  field_of_result. now apply nonpositive_no_payback.
Qed.

(* ================================================================== *)
(** ** The IRR search *)
(* ================================================================== *)



(** C5: on the reference site over three years the search stops at about
    0.0437, and the NPV formula leaves more than 0.03 there, above the
    1e-4 of the claim.  The Newton step divides each term of the
    derivative by [df.pow(2)], that is by (1 + r)^(2y), where the
    derivative of the NPV formula has (1 + r)^(y + 1). *)
Theorem reference_three_years_residual :
  irr (calculateBatteryROI three_year_inputs) = Some (Dec.Fin 43701424283731703149 (-21)) /\
  (3 # 100 < residual three_year_inputs (Dec.Fin 43701424283731703149 (-21)))%Q /\
  ~ residual_within_tolerance three_year_inputs.
Proof.
  assert (Hirr : irr (calculateBatteryROI three_year_inputs)
                 = Some (Dec.Fin 43701424283731703149 (-21)))
    by (field_of_result; vm_compute; reflexivity).
  assert (Hres : (3 # 100 < residual three_year_inputs
                              (Dec.Fin 43701424283731703149 (-21)))%Q)
    by (unfold residual; field_of_result; vm_compute; reflexivity).
  repeat split; try assumption.
  intros H. specialize (H _ Hirr). revert H. apply Qlt_not_le.
  apply Qlt_le_trans with (3 # 100)%Q; [reflexivity|].
  eapply Qle_trans; [apply Qlt_le_weak, Hres|apply Qle_Qabs].
Qed.

(* ================================================================== *)
(** ** Inputs outside the stated preconditions *)
(* ================================================================== *)

(** C6, as stated, fails: with one monthly peak, a grant of 1.5 and zero
    years the body runs through like for any other input, and has
    computed every figure (one month of demand savings, a negative net
    investment and payback) by the time the call ends. *)
Lemma malformed_inputs_are_computed :
  length (monthly_peaks_kw malformed_inputs) = 1%nat /\
  in_unit_interval (grant_pct malformed_inputs) = false /\
  years malformed_inputs = 0 /\
  (exists figures,
     computed (run_calculateBatteryROI malformed_inputs) = Some figures /\
     annual_net_sek figures = Dec.Fin 68989152 (-3) /\
     payback figures = Some (Dec.Fin (-91608605364507161938) (-19)) /\
     npv figures = Dec.Fin 632 3 /\
     irr figures = None /\
     Details.pv_savings (details figures) = Dec.Fin 6041256 (-2) /\
     Details.demand_savings (details figures) = Dec.Fin 861 1 /\
     Details.arbitrage_savings (details figures) = Dec.Fin 5186592 (-3) /\
     Details.net_investment (details figures) = Dec.Fin (-632) 3) /\
  ~ fails_fast malformed_inputs.
Proof.
  repeat split; try (vm_compute; reflexivity).
  - exists (calculateBatteryROI malformed_inputs). split; [reflexivity|].
    field_of_result. repeat split; vm_compute; reflexivity.
  - intros H. unfold fails_fast in H.
    assert (Hv : violates_precondition malformed_inputs) by (left; vm_compute; discriminate).
    specialize (H Hv). discriminate H.
Qed.

(** C6 (amended): the function validates nothing and rejects no input
    before computing.  Whatever the length of monthly_peaks_kw, the range
    of the fractions and the sign of years, its body computes every
    figure: the demand savings sum one term per peak supplied (none gives
    0), and with years <= 0 the yearly loops do not run, so that npv is
    0 - net_investment and irr is null. *)
Theorem no_input_is_rejected (inputs : ROIInputs) :
  exists figures, computed (run_calculateBatteryROI inputs) = Some figures /\
    Details.demand_savings (details figures) =
      fold_left (fun acc peak =>
                   Dec.plus acc (Dec.mul (Dec.min peak (Dec.mul (inverter_kw inputs) (Dec.Fin 6 (-1))))
                                         (demand_price_sek_per_kw_month inputs)))
                (monthly_peaks_kw inputs) (Dec.Fin 0 0) /\
    (monthly_peaks_kw inputs = [] -> Details.demand_savings (details figures) = Dec.Fin 0 0) /\
    (years inputs <= 0 ->
       npv figures = Dec.minus (Dec.Fin 0 0) (Details.net_investment (details figures)) /\
       irr figures = None).
Proof.
  exists (calculateBatteryROI inputs). split; [reflexivity|].
  field_of_result. repeat split.
  - unfold demand_savings. now intros ->.
  - unfold npv_of, cash_flow_loop. now rewrite year_range_nonpos.
  - unfold irr_of. rewrite zero_derivative_loop; [reflexivity|].
    unfold derivative, newton_sums. now rewrite year_range_nonpos.
Qed.

Lemma no_input_is_rejected_witness :
  exists figures, computed (run_calculateBatteryROI malformed_inputs) = Some figures /\
    npv figures = Dec.minus (Dec.Fin 0 0) (Details.net_investment (details figures)) /\
    irr figures = None.
Proof.
  destruct (no_input_is_rejected malformed_inputs) as (r & Hr & _ & _ & Hy).
  exists r. split; [exact Hr|]. apply Hy. vm_compute. discriminate.
Defined.

(* ================================================================== *)
(** ** The sanity check *)
(* ================================================================== *)

(** The exception of the engine ends the check before it compares. *)
Lemma every_check_raises (inputs : ROIInputs) (a p : number) :
  runSanityCheck inputs a p = Throws.
Proof. reflexivity. Qed.

(** C7: on the reference site, whatever the two actual figures, the call
    of line 26 ends in the TypeError of the engine's return statement and
    [runSanityCheck] with it: no [pass] comes back, neither true for
    figures within the tolerances nor false for others. *)
Theorem sanity_check_raises (actualAnnualNet actualPayback : number) :
  call_calculateBatteryROI reference_inputs = Throws /\
  runSanityCheck reference_inputs actualAnnualNet actualPayback = Throws.
Proof. split; reflexivity. Qed.

(** C10: on the reference site with an operating cost of 200 000 the
    annual net is negative and no payback is computed; [runSanityCheck]
    then ends in the same TypeError for every actual payback, NaN
    included, and returns neither [pass = false] nor a NaN delta. *)
Theorem sanity_check_raises_without_payback (actualAnnualNet actualPayback : number) :
  Dec.lte (annual_net_sek (calculateBatteryROI loss_making_inputs)) (Dec.ofZ 0) = true /\
  payback (calculateBatteryROI loss_making_inputs) = None /\
  runSanityCheck loss_making_inputs actualAnnualNet actualPayback = Throws.
Proof.
  assert (H : Dec.lte (annual_net loss_making_inputs) (Dec.ofZ 0) = true)
    by (vm_compute; reflexivity).
  split; [exact H|]. split; [|reflexivity].
  field_of_result. now apply nonpositive_no_payback.
Qed.

(* ================================================================== *)
(** ** The cap on demand savings *)
(* ================================================================== *)

(** C8, as stated, fails: each month adds 3 x 1.0000000000000000005 =
    3.0000000000000000015; from the fifth month on the sum has more than 20
    digits and is rounded up each time, and the year ends at
    36.000000000000000022, above 12 x 0.6 x 5 x 1.0000000000000000005 =
    36.000000000000000018. *)
Lemma demand_savings_exceed_product :
  demand_partial_sums fine_price_inputs (monthly_peaks_kw fine_price_inputs) =
    [ Dec.Fin 30000000000000000015 (-19); Dec.Fin 6000000000000000003 (-18);
      Dec.Fin 90000000000000000045 (-19); Dec.Fin 12000000000000000006 (-18);
      Dec.Fin 15000000000000000008 (-18); Dec.Fin 1800000000000000001 (-17);
      Dec.Fin 21000000000000000012 (-18); Dec.Fin 24000000000000000014 (-18);
      Dec.Fin 27000000000000000016 (-18); Dec.Fin 30000000000000000018 (-18);
      Dec.Fin 3300000000000000002 (-17); Dec.Fin 36000000000000000022 (-18) ] /\
  Details.demand_savings (details (calculateBatteryROI fine_price_inputs))
    = Dec.Fin 36000000000000000022 (-18) /\
  Dec.mul (Dec.mul (Dec.mul (Dec.ofZ 12) (Dec.Fin 6 (-1))) (inverter_kw fine_price_inputs))
          (demand_price_sek_per_kw_month fine_price_inputs)
    = Dec.Fin 36000000000000000018 (-18) /\
  ~ demand_savings_within_product fine_price_inputs.
Proof.
  assert (Hd : Details.demand_savings (details (calculateBatteryROI fine_price_inputs))
               = Dec.Fin 36000000000000000022 (-18))
    by (field_of_result; vm_compute; reflexivity).
  repeat split; try exact Hd; try (vm_compute; reflexivity).
  intros H. unfold demand_savings_within_product in H. rewrite Hd in H.
  specialize (H eq_refl eq_refl eq_refl). revert H. apply Qlt_not_le.
  vm_compute. reflexivity.
Qed.

Lemma min_self c : Dec.isFinite c = true -> Dec.min c c = c.
Proof.
  destruct c as [| |m e]; try discriminate. intros _. unfold Dec.min, Dec.gt.
  now rewrite cmp_refl.
Qed.

Section Capped.

Variable inputs : ROIInputs.

Hypothesis inverter_finite : Dec.isFinite (inverter_kw inputs) = true.
Hypothesis price_finite : Dec.isFinite (demand_price_sek_per_kw_month inputs) = true.
Hypothesis price_nonneg : (0 <= toQ (demand_price_sek_per_kw_month inputs))%Q.

Lemma cap_kw_finite : Dec.isFinite (cap_kw inputs) = true.
Proof. unfold cap_kw. now apply isFinite_mul. Qed.

(** The shaved power is a number no greater than the cap. *)
Lemma shaved_kw_capped peak :
  number_or_plus_infinity peak = true ->
  Dec.isFinite (Dec.min peak (cap_kw inputs)) = true /\
  (toQ (Dec.min peak (cap_kw inputs)) <= toQ (cap_kw inputs))%Q.
Proof.
  pose proof cap_kw_finite as Hc. intros Hp.
  destruct peak as [|[]|m e]; try discriminate.
  - destruct (cap_kw inputs) as [| |mc ec]; try discriminate.
    cbn. split; [reflexivity|apply Qle_refl].
  - now apply min_le_r.
Qed.

Lemma add_month_finite acc peak :
  Dec.isFinite acc = true -> number_or_plus_infinity peak = true ->
  Dec.isFinite (add_month inputs acc peak) = true.
Proof.
  intros Ha Hp. unfold add_month. apply isFinite_plus; [assumption|].
  apply isFinite_mul; [|assumption]. now apply shaved_kw_capped.
Qed.

(** A month at its peak adds no more than a month at the cap. *)
Lemma add_month_capped acc acc' peak :
  Dec.isFinite acc = true -> Dec.isFinite acc' = true ->
  number_or_plus_infinity peak = true ->
  (toQ acc <= toQ acc')%Q ->
  (toQ (add_month inputs acc peak) <= toQ (add_month inputs acc' (cap_kw inputs)))%Q.
Proof.
  intros Ha Ha' Hp Hle. unfold add_month.
  pose proof cap_kw_finite as Hc.
  destruct (shaved_kw_capped peak Hp) as [Hmf Hml].
  rewrite (min_self _ Hc).
  assert (Hterm : (toQ (Dec.mul (Dec.min peak (cap_kw inputs))
                                (demand_price_sek_per_kw_month inputs))
                   <= toQ (Dec.mul (cap_kw inputs)
                                   (demand_price_sek_per_kw_month inputs)))%Q).
  { apply mul_mono; try assumption. now apply Qmult_le_compat_r. }
  apply plus_mono; try assumption; try (apply isFinite_mul; assumption).
  lra.
Qed.

Lemma cap_is_number : number_or_plus_infinity (cap_kw inputs) = true.
Proof. pose proof cap_kw_finite as Hc. now destruct (cap_kw inputs). Qed.

Lemma demand_loop_capped peaks : forall acc acc',
  Forall (fun p => number_or_plus_infinity p = true) peaks ->
  Dec.isFinite acc = true -> Dec.isFinite acc' = true ->
  (toQ acc <= toQ acc')%Q ->
  Dec.isFinite (fold_left (add_month inputs) peaks acc) = true /\
  Dec.isFinite (fold_left (add_month inputs)
                          (repeat (cap_kw inputs) (length peaks)) acc') = true /\
  (toQ (fold_left (add_month inputs) peaks acc)
   <= toQ (fold_left (add_month inputs) (repeat (cap_kw inputs) (length peaks)) acc'))%Q.
Proof.
  induction peaks as [|p peaks IH]; intros acc acc' Hall Ha Ha' Hle.
  - cbn. now repeat split.
  - inversion Hall as [|? ? Hp Hrest]; subst. cbn [length repeat fold_left].
    apply IH; try assumption.
    + now apply add_month_finite.
    + apply add_month_finite; [assumption|apply cap_is_number].
    + now apply add_month_capped.
Qed.

End Capped.

(** C8 (amended): with a finite inverter rating, a finite non-negative
    demand price and peaks that are numbers, however large, or +Infinity,
    demand_savings is at most what the same loop yields when every peak is
    at the cap 0.6 x inverter_kw: for twelve peaks, twelve times
    0.6 x inverter_kw x price as decimal.js computes that sum, each product
    and partial sum rounded to 20 significant digits. *)
Theorem demand_savings_capped (inputs : ROIInputs) :
  Forall (fun p => number_or_plus_infinity p = true) (monthly_peaks_kw inputs) ->
  Dec.isFinite (inverter_kw inputs) = true ->
  Dec.isFinite (demand_price_sek_per_kw_month inputs) = true ->
  Dec.gte (demand_price_sek_per_kw_month inputs) (Dec.ofZ 0) = true ->
  let cap := Dec.mul (inverter_kw inputs) (Dec.Fin 6 (-1)) in
  let month_at_cap := fun acc =>
    Dec.plus acc (Dec.mul cap (demand_price_sek_per_kw_month inputs)) in
  Dec.lte (Details.demand_savings (details (calculateBatteryROI inputs)))
          (Nat.iter (length (monthly_peaks_kw inputs)) month_at_cap (Dec.Fin 0 0)) = true.
Proof.
  intros Hpeaks Hinv Hprice Hnonneg. cbv zeta. field_of_result.
  apply gte_value in Hnonneg; [|assumption|reflexivity].
  change (toQ (Dec.ofZ 0)) with (F2Q 0 0) in Hnonneg. rewrite F2Q_0 in Hnonneg.
  destruct (demand_loop_capped inputs Hinv Hprice Hnonneg (monthly_peaks_kw inputs)
              (Dec.ofZ 0) (Dec.ofZ 0) Hpeaks eq_refl eq_refl (Qle_refl _))
    as (Hf & Hf' & Hle).
  assert (Hiter : forall n acc,
    fold_left (add_month inputs) (repeat (cap_kw inputs) n) acc =
    Nat.iter n (fun acc => Dec.plus acc (Dec.mul (Dec.mul (inverter_kw inputs) (Dec.Fin 6 (-1)))
                                                 (demand_price_sek_per_kw_month inputs)))
             acc).
  { induction n as [|n IHn]; intros acc; [reflexivity|].
    rewrite Nat.iter_succ_r. cbn [repeat fold_left]. rewrite IHn. f_equal.
    unfold add_month. rewrite (min_self _ (cap_kw_finite inputs Hinv)). reflexivity. }
  rewrite Hiter in Hf', Hle.
  apply lte_value; assumption.
Qed.

Lemma demand_savings_capped_witness :
  Dec.lte (Details.demand_savings (details (calculateBatteryROI fine_price_inputs)))
          (Nat.iter 12
             (fun acc => Dec.plus acc (Dec.mul (Dec.mul (Dec.Fin 5 0) (Dec.Fin 6 (-1)))
                                               (Dec.Fin 10000000000000000005 (-19))))
             (Dec.Fin 0 0)) = true.
Proof.
  apply (demand_savings_capped fine_price_inputs).
  - repeat constructor.
  - reflexivity.
  - reflexivity.
  - vm_compute. reflexivity.
Defined.

(** On the reference inputs nothing is rounded and the bound is the exact
    product 12 x 0.6 x 125 x 114.8 = 103320, which the twelve peaks of
    75 kW reach. *)
Example reference_demand_bound :
  Nat.iter 12
    (fun acc => Dec.plus acc (Dec.mul (Dec.mul (Dec.Fin 125 0) (Dec.Fin 6 (-1)))
                                      (Dec.Fin 1148 (-1))))
    (Dec.Fin 0 0) = Dec.Fin 10332 1 /\
  (toQ (Dec.Fin 10332 1) == 12 * (6 # 10) * 125 * (1148 # 10))%Q /\
  demand_savings reference_inputs = Dec.Fin 10332 1.
Proof. repeat split; vm_compute; reflexivity. Qed.

(* ================================================================== *)
(** ** A larger grant *)
(* ================================================================== *)

(** C9, as stated, fails: with capex_cogs = 0 the net investment is 0 for a
    grant of 0 and for a grant of 0.65 alike. *)
Lemma free_system_grant_changes_nothing :
  Details.net_investment (details (calculateBatteryROI free_system_inputs)) = Dec.Fin 0 0 /\
  Details.net_investment
    (details (calculateBatteryROI (with_grant free_system_inputs (Dec.Fin 65 (-2)))))
    = Dec.Fin 0 0 /\
  ~ larger_grant_strictly_lowers_investment free_system_inputs (Dec.Fin 65 (-2)).
Proof.
  repeat split; try (field_of_result; vm_compute; reflexivity).
  intros H. destruct (H eq_refl eq_refl eq_refl) as [Hlt _].
  revert Hlt. field_of_result. vm_compute. discriminate.
Qed.

Lemma toQ_ofZ n : (toQ (Dec.ofZ n) == inject_Z n)%Q.
Proof. cbn [toQ Dec.ofZ]. unfold F2Q. cbn [Qpower]. ring. Qed.

Section Grant.

Variable i : ROIInputs.
Variable g : Decimal.

Hypothesis capex_finite : Dec.isFinite (capex_cogs i) = true.
Hypothesis capex_nonneg : (0 <= toQ (capex_cogs i))%Q.
Hypothesis grant_finite : Dec.isFinite (grant_pct i) = true.
Hypothesis g_finite : Dec.isFinite g = true.
Hypothesis grant_le : (toQ (grant_pct i) <= toQ g)%Q.
Hypothesis g_le_1 : (toQ g <= 1)%Q.

Lemma share_facts :
  let share1 := Dec.minus (Dec.ofZ 1) (grant_pct i) in
  let share2 := Dec.minus (Dec.ofZ 1) g in
  Dec.isFinite share1 = true /\ Dec.isFinite share2 = true /\
  (0 <= toQ share2)%Q /\ (toQ share2 <= toQ share1)%Q.
Proof.
  cbv zeta. repeat split.
  - now apply isFinite_minus.
  - now apply isFinite_minus.
  - apply minus_nonneg; [reflexivity|assumption|]. rewrite toQ_ofZ. exact g_le_1.
  - apply minus_mono; try assumption; try reflexivity. lra.
Qed.

Lemma net_investment_facts :
  Dec.isFinite (net_investment i) = true /\
  Dec.isFinite (net_investment (with_grant i g)) = true /\
  (0 <= toQ (net_investment (with_grant i g)))%Q /\
  (toQ (net_investment (with_grant i g)) <= toQ (net_investment i))%Q.
Proof.
  destruct share_facts as (Hf1 & Hf2 & H0 & Hle).
  change (net_investment i)
    with (Dec.mul (capex_cogs i) (Dec.minus (Dec.ofZ 1) (grant_pct i))).
  change (net_investment (with_grant i g))
    with (Dec.mul (capex_cogs i) (Dec.minus (Dec.ofZ 1) g)).
  repeat split.
  - now apply isFinite_mul.
  - now apply isFinite_mul.
  - now apply mul_nonneg.
  - apply mul_mono; try assumption. rewrite !(Qmult_comm (toQ (capex_cogs i))).
    now apply Qmult_le_compat_r.
Qed.

Lemma payback_not_larger p1 p2 :
  payback_of i = Some p1 -> payback_of (with_grant i g) = Some p2 ->
  Dec.lte p2 p1 = true.
Proof.
  destruct net_investment_facts as (Hf1 & Hf2 & H0 & Hle).
  unfold payback_of. change (annual_net (with_grant i g)) with (annual_net i).
  destruct (Dec.gt (annual_net i) (Dec.ofZ 0)) eqn:Hgt; [|discriminate].
  intros [= <-] [= <-].
  destruct (annual_net i) as [|s|ma ea] eqn:Han.
  - discriminate.
  - destruct s; [discriminate|].
    destruct (net_investment i), (net_investment (with_grant i g)); try discriminate.
    reflexivity.
  - assert (Hpos : (0 < toQ (Dec.Fin ma ea))%Q).
    { apply gt_value in Hgt; [|reflexivity|reflexivity].
      now rewrite toQ_ofZ in Hgt. }
    assert (Hnz : Dec.isZero (Dec.Fin ma ea) = false).
    { cbn [Dec.isZero]. cbn [toQ] in Hpos. apply F2Q_sign_pos in Hpos.
      destruct (Z.eqb_spec ma 0); [lia|reflexivity]. }
    apply lte_value; try (apply isFinite_div; try assumption; reflexivity).
    apply div_mono_nonneg; try assumption; reflexivity.
Qed.

End Grant.

(** C9 (amended): for inputs that differ only in grant_pct, with a finite
    capex_cogs >= 0 and the larger grant at most 1, the net investment of
    the larger grant is never above the other, and strictly below it when
    capex_cogs > 0 and both net investments are exact (no digit lost to the
    rounding at 20 significant digits); and when both paybacks are not null,
    the payback of the larger grant is not the larger one. *)
Theorem larger_grant_lowers_investment (i : ROIInputs) (g : Decimal) :
  Dec.isFinite (capex_cogs i) = true ->
  Dec.gte (capex_cogs i) (Dec.ofZ 0) = true ->
  Dec.isFinite (grant_pct i) = true ->
  Dec.isFinite g = true ->
  Dec.lt (grant_pct i) g = true ->
  Dec.lte g (Dec.ofZ 1) = true ->
  let r1 := calculateBatteryROI i in
  let r2 := calculateBatteryROI (with_grant i g) in
  let ni1 := Details.net_investment (details r1) in
  let ni2 := Details.net_investment (details r2) in
  Dec.lte ni2 ni1 = true /\
  (Dec.gt (capex_cogs i) (Dec.ofZ 0) = true ->
   net_investment_exact (capex_cogs i) (grant_pct i) ->
   net_investment_exact (capex_cogs i) g ->
   Dec.lt ni2 ni1 = true) /\
  (forall p1 p2, payback r1 = Some p1 -> payback r2 = Some p2 -> Dec.lte p2 p1 = true).
Proof.
  intros Hcf Hc0 Hgf1 Hgf2 Hlt Hle1. cbv zeta. field_of_result.
  apply gte_value in Hc0; [|assumption|reflexivity]. rewrite toQ_ofZ in Hc0.
  apply lt_value in Hlt; [|assumption|assumption].
  apply lte_value in Hle1; [|assumption|reflexivity]. rewrite toQ_ofZ in Hle1.
  assert (Hle : (toQ (grant_pct i) <= toQ g)%Q) by lra.
  destruct (net_investment_facts i g Hcf Hc0 Hgf1 Hgf2 Hle Hle1) as (Hf1 & Hf2 & H0 & Hni).
  repeat split.
  - now apply lte_value.
  - intros Hpos Hex1 Hex2. apply lt_value; [assumption|assumption|].
    apply gt_value in Hpos; [|assumption|reflexivity]. rewrite toQ_ofZ in Hpos.
    change (net_investment i) with (Dec.mul (capex_cogs i) (Dec.minus (Dec.ofZ 1) (grant_pct i))).
    change (net_investment (with_grant i g))
      with (Dec.mul (capex_cogs i) (Dec.minus (Dec.ofZ 1) g)).
    unfold net_investment_exact in Hex1, Hex2. rewrite Hex1, Hex2.
    apply Qmult_lt_l; [exact Hpos|lra].
  - intros p1 p2. now apply payback_not_larger.
Qed.

Lemma larger_grant_lowers_investment_witness :
  let r1 := calculateBatteryROI reference_inputs in
  let r2 := calculateBatteryROI (with_grant reference_inputs (Dec.Fin 7 (-1))) in
  Dec.lte (Details.net_investment (details r2)) (Details.net_investment (details r1)) = true /\
  Dec.lt (Details.net_investment (details r2)) (Details.net_investment (details r1)) = true.
Proof.
  destruct (larger_grant_lowers_investment reference_inputs (Dec.Fin 7 (-1)))
    as (Hle & Hlt & _); try reflexivity.
  split; [exact Hle|]. apply Hlt; vm_compute; reflexivity.
Defined.

(** On the reference inputs a grant of 0.70 instead of 0.65 brings the net
    investment from 442400 to 379200 and the payback from about 2.70 to
    about 2.32 years. *)
Example reference_larger_grant :
  let r2 := calculateBatteryROI (with_grant reference_inputs (Dec.Fin 7 (-1))) in
  Details.net_investment (details r2) = Dec.Fin 3792 2 /\
  payback r2 = Some (Dec.Fin 23164444981364350623 (-19)).
Proof. cbv zeta. field_of_result. split; vm_compute; reflexivity. Qed.

(* ================================================================== *)
(** ** Canonical results *)
(* ================================================================== *)

Lemma digits_mono a b : Z.abs a <= Z.abs b -> Dec.digits a <= Dec.digits b.
Proof.
  intros H. destruct (Z.eq_dec a 0) as [->|Ha].
  - rewrite digits_0. destruct (Z.eq_dec b 0) as [->|Hb]; [reflexivity|].
    pose proof (digits_pos b Hb). lia.
  - assert (Hb : b <> 0) by lia.
    destruct (digits_spec a Ha) as [Hlo _]. destruct (digits_spec b Hb) as [_ Hhi].
    pose proof (digits_pos a Ha). pose proof (digits_pos b Hb).
    assert (Dec.digits a - 1 < Dec.digits b); [|lia].
    apply (Z.pow_lt_mono_r_iff 10); lia.
Qed.

(** [strip] leaves no trailing zero, given fuel for the size of [m]. *)
Lemma strip_no_trailing_zero fuel : forall m e,
  m <> 0 -> Z.abs m < 2 ^ Z.of_nat fuel ->
  fst (Dec.strip fuel m e) mod 10 <> 0 /\
  fst (Dec.strip fuel m e) <> 0 /\
  Z.abs (fst (Dec.strip fuel m e)) <= Z.abs m.
Proof.
  induction fuel as [|fuel IH]; intros m e Hm Hlt.
  - cbn in Hlt. lia.
  - cbn [Dec.strip]. destruct (Z.eqb_spec (m mod 10) 0) as [Hz|Hnz].
    + pose proof (Z.div_mod m 10 ltac:(lia)) as Hdm.
      assert (Hm10 : m = 10 * (m / 10)) by lia.
      assert (Hq : m / 10 <> 0) by lia.
      assert (Hlt' : Z.abs (m / 10) < 2 ^ Z.of_nat fuel).
      { rewrite Nat2Z.inj_succ, Z.pow_succ_r in Hlt by lia. lia. }
      destruct (IH (m / 10) (e + 1) Hq Hlt') as (H1 & H2 & H3).
      repeat split; try assumption. lia.
    + cbn [fst]. repeat split; try assumption. lia.
Qed.

Lemma normal_canonical m e :
  Dec.digits m <= Dec.precision \/ Z.abs m <= 10 ^ Dec.precision ->
  canonical (Dec.normal m e).
Proof.
  intros Hd. unfold Dec.normal. destruct (Z.eqb_spec m 0) as [->|Hm].
  - left. split; reflexivity.
  - assert (Hfuel : Z.abs m < 2 ^ Z.of_nat (S (Z.to_nat (Z.log2 (Z.abs m))))).
    { rewrite Nat2Z.inj_succ, Z2Nat.id by apply Z.log2_nonneg.
      apply Z.log2_spec. lia. }
    destruct (strip_no_trailing_zero _ m e Hm Hfuel) as (H1 & H2 & H3).
    destruct (Dec.strip _ m e) as [m' e']. cbn [fst] in *. cbn [canonical].
    right. split; [assumption|].
    destruct Hd as [Hd|Hd].
    + pose proof (digits_mono m' m H3). lia.
    + (* at most 10^precision, and not a multiple of ten: below 10^precision *)
      assert (Hlt : Z.abs m' < 10 ^ Dec.precision).
      { destruct (Z.eq_dec (Z.abs m') (10 ^ Dec.precision)) as [Heq|]; [|lia].
        exfalso. apply H1.
        assert (Hz : Z.abs m' mod 10 = 0) by (rewrite Heq; reflexivity).
        apply Z.mod_divide in Hz; [|lia]. apply (proj1 (Z.divide_abs_r 10 m')) in Hz.
        apply Z.mod_divide; [lia|exact Hz]. }
      destruct (digits_spec m' H2) as [Hlo _]. pose proof (digits_pos m' H2).
      assert (Dec.digits m' - 1 < Dec.precision); [|lia].
      apply (Z.pow_lt_mono_r_iff 10); unfold Dec.precision in *; lia.
Qed.

Lemma round_half_up_bound m :
  Dec.precision < Dec.digits m ->
  Z.abs (Dec.round_half_up m (Dec.digits m - Dec.precision)) <= 10 ^ Dec.precision.
Proof.
  intros Hd.
  assert (Hpos : forall n, 0 < n -> Dec.precision < Dec.digits n ->
            0 <= Dec.round_half_up n (Dec.digits n - Dec.precision) <= 10 ^ Dec.precision).
  { intros n Hn Hdn.
    pose proof (rounded_round_at n 0 (Dec.digits n - Dec.precision) Hn ltac:(lia) ltac:(lia)) as H.
    unfold rounded in H.
    destruct (Z.leb_spec (Dec.digits n) Dec.precision); [lia|]. cbn [fst snd] in H.
    assert (E : Dec.round_half_up n (Dec.digits n - Dec.precision)
                = round_at n (Dec.digits n - Dec.precision)).
    { apply Z.le_antisymm; apply (F2Q_le _ _ (0 + (Dec.digits n - Dec.precision)));
        rewrite H; apply Qle_refl. }
    rewrite E.
    destruct (round_at_bounds n (Dec.digits n - Dec.precision) Hn) as [Hlo Hhi]; [lia..|].
    split; [|exact Hhi].
    eapply Z.le_trans; [|exact Hlo]. apply Z.lt_le_incl, pow10_gt_0.
    unfold Dec.precision. lia. }
  assert (Hm : m <> 0) by (intros ->; rewrite digits_0 in Hd; unfold Dec.precision in Hd; lia).
  destruct (Z.lt_trichotomy m 0) as [Hneg|[H0|Hp]]; [|contradiction|].
  - pose proof (Hpos (- m) ltac:(lia)) as H. rewrite digits_opp in H.
    specialize (H Hd). rewrite round_half_up_opp in H. lia.
  - pose proof (Hpos m Hp Hd). lia.
Qed.

(** What arithmetic returns is canonical. *)
Lemma finalise_canonical m e : canonical (Dec.finalise m e).
Proof.
  unfold Dec.finalise. destruct (Z.leb_spec (Dec.digits m) Dec.precision) as [Hle|Hgt].
  - apply normal_canonical. now left.
  - apply normal_canonical. right. now apply round_half_up_bound.
Qed.

(** Rounding leaves a canonical value as it is. *)
Lemma finalise_of_canonical m e :
  canonical (Dec.Fin m e) -> Dec.finalise m e = Dec.Fin m e.
Proof.
  intros [[-> ->]|[Hnz Hd]]; [reflexivity|].
  unfold Dec.finalise. destruct (Z.leb_spec (Dec.digits m) Dec.precision); [|lia].
  unfold Dec.normal. destruct (Z.eqb_spec m 0) as [->|_]; [now elim Hnz|].
  cbn [Dec.strip]. destruct (Z.eqb_spec (m mod 10) 0); [contradiction|reflexivity].
Qed.

Lemma mul_canonical x y : canonical (Dec.mul x y).
Proof.
  destruct x as [|s1|m1 e1], y as [|s2|m2 e2]; cbn [Dec.mul]; try exact I.
  - destruct (m2 =? 0); exact I.
  - destruct (m1 =? 0); exact I.
  - apply finalise_canonical.
Qed.

Lemma plus_canonical x y : canonical (Dec.plus x y).
Proof.
  destruct x as [|s1|m1 e1], y as [|s2|m2 e2]; cbn [Dec.plus]; try exact I.
  - destruct (Bool.eqb s1 s2); exact I.
  - destruct (Dec.align m1 e1 m2 e2). apply finalise_canonical.
Qed.

Lemma minus_canonical x y : canonical (Dec.minus x y).
Proof.
  destruct x as [|s1|m1 e1], y as [|s2|m2 e2]; cbn [Dec.minus]; try exact I.
  - destruct (Bool.eqb s1 s2); exact I.
  - destruct (Dec.align m1 e1 m2 e2). apply finalise_canonical.
Qed.

(** Multiplying a canonical value by one returns it. *)
Lemma mul_one_r x : canonical x -> Dec.mul x (Dec.Fin 1 0) = x.
Proof.
  destruct x as [|s|m e]; intros Hc; [reflexivity| |].
  - cbn. now destruct s.
  - cbn [Dec.mul]. rewrite Z.mul_1_r, Z.add_0_r. now apply finalise_of_canonical.
Qed.

(* ================================================================== *)
(** ** The cash-flow projection *)
(* ================================================================== *)

Lemma cash_flow_fold (inputs : ROIInputs) (ys : list Z) : forall acc cfs,
  fold_left
    (fun st year =>
       let discounted := discounted_net inputs year in
       (Dec.plus (fst st) discounted, snd st ++ [discounted]))
    ys (acc, cfs)
  = (fold_left Dec.plus (map (discounted_net inputs) ys) acc,
     cfs ++ map (discounted_net inputs) ys).
Proof.
  induction ys as [|y ys IH]; intros acc cfs; cbn [fold_left map].
  - now rewrite app_nil_r.
  - cbn [fst snd]. rewrite IH. now rewrite <- app_assoc.
Qed.

Lemma cashFlows_are_discounted_nets (inputs : ROIInputs) :
  cash_flow_loop inputs =
    (fold_left Dec.plus (map (discounted_net inputs) (year_range (years inputs))) (Dec.ofZ 0),
     map (discounted_net inputs) (year_range (years inputs))).
Proof. unfold cash_flow_loop. now rewrite cash_flow_fold. Qed.





Lemma pow_one_negative year : 1 <= year -> Dec.pow (Dec.Fin 1 0) (- year) = Dec.Fin 1 0.
Proof.
  intros H. unfold Dec.pow.
  destruct (Z.eqb_spec (- year) 0); [lia|]. cbn [Z.eqb].
  destruct (Z.ltb_spec (- year) 0); [|lia].
  rewrite Z.opp_involutive, Z.pow_1_l, Z.mul_0_l by lia. reflexivity.
Qed.

Lemma year_range_from_1 n : Forall (fun year => 1 <= year) (year_range n).
Proof.
  unfold year_range. apply Forall_forall. intros y Hy.
  apply in_map_iff in Hy as (k & <- & Hk). apply in_seq in Hk. lia.
Qed.

(** Without discounting, the discounted net of a year is its degraded
    net. *)
Lemma undiscounted_net (inputs : ROIInputs) (year : Z) :
  wacc inputs = Dec.Fin 0 0 -> 1 <= year ->
  discounted_net inputs year = degraded_net inputs year.
Proof.
  intros Hw Hy. unfold discounted_net, degraded_net. cbv zeta. rewrite Hw.
  change (Dec.plus (Dec.ofZ 1) (Dec.Fin 0 0)) with (Dec.Fin 1 0).
  rewrite pow_one_negative by exact Hy. apply mul_one_r, mul_canonical.
Qed.

(** X2: with wacc = 0 nothing is discounted: npv is the Decimal sum over
    the years 1 .. years of annual_net x (1 - degradation)^(year - 1), less
    the net investment. *)
Theorem npv_without_discounting (inputs : ROIInputs) :
  wacc inputs = Dec.Fin 0 0 ->
  npv (calculateBatteryROI inputs) =
    Dec.minus
      (fold_left Dec.plus
         (map (fun year =>
                 Dec.mul (annual_net_sek (calculateBatteryROI inputs))
                         (Dec.pow (Dec.minus (Dec.Fin 1 0) (degradation inputs)) (year - 1)))
              (year_range (years inputs)))
         (Dec.Fin 0 0))
      (Details.net_investment (details (calculateBatteryROI inputs))).
Proof.
  intros Hw. field_of_result. unfold npv_of.
  rewrite cashFlows_are_discounted_nets. cbn [fst]. f_equal. f_equal.
  pose proof (year_range_from_1 (years inputs)) as Hall.
  induction Hall as [|y ys Hy _ IH]; [reflexivity|].
  cbn [map]. rewrite IH. f_equal. now apply undiscounted_net.
Qed.

Lemma npv_without_discounting_witness :
  npv (calculateBatteryROI undiscounted_inputs) = Dec.Fin 389409865408 (-7).
Proof.
  rewrite (npv_without_discounting undiscounted_inputs eq_refl).
  field_of_result. vm_compute. reflexivity.
Defined.

(* ================================================================== *)
(** ** A site that earns nothing *)
(* ================================================================== *)





Section Earning_nothing.

Variable inputs : ROIInputs.
Hypothesis no_net : Dec.isZero (annual_net inputs) = true.



End Earning_nothing.



(* ================================================================== *)
(** ** Net investment and payback within the stated ranges *)
(* ================================================================== *)

Lemma net_investment_nonneg (inputs : ROIInputs) :
  Dec.isFinite (capex_cogs inputs) = true -> (0 <= toQ (capex_cogs inputs))%Q ->
  Dec.isFinite (grant_pct inputs) = true -> (toQ (grant_pct inputs) <= 1)%Q ->
  Dec.isFinite (net_investment inputs) = true /\ (0 <= toQ (net_investment inputs))%Q.
Proof.
  intros Hcf Hc0 Hgf Hg1. unfold net_investment.
  assert (Hsf : Dec.isFinite (Dec.minus (Dec.ofZ 1) (grant_pct inputs)) = true)
    by now apply isFinite_minus.
  assert (Hs0 : (0 <= toQ (Dec.minus (Dec.ofZ 1) (grant_pct inputs)))%Q).
  { apply minus_nonneg; [reflexivity|assumption|]. now rewrite toQ_ofZ. }
  split; [now apply isFinite_mul|now apply mul_nonneg].
Qed.

Lemma div_nonneg x y :
  Dec.isFinite x = true -> (0 <= toQ x)%Q -> Dec.gt y (Dec.ofZ 0) = true ->
  Dec.isFinite (Dec.div x y) = true /\ (0 <= toQ (Dec.div x y))%Q.
Proof.
  destruct x as [| |m1 e1]; try discriminate. intros _ H0 Hgt.
  cbn [toQ] in H0. apply F2Q_sign_nonneg in H0.
  destruct y as [|s|m2 e2]; [discriminate| |].
  - destruct s; [discriminate|]. cbn. split; [reflexivity|]. rewrite F2Q_0. apply Qle_refl.
  - assert (H2 : 0 < m2).
    { apply gt_value in Hgt; [|reflexivity|reflexivity].
      rewrite toQ_ofZ in Hgt. now apply (F2Q_sign_pos m2 e2). }
    unfold Dec.div. destruct (Z.eqb_spec m2 0); [lia|].
    destruct (Z.eqb_spec m1 0).
    + cbn. split; [reflexivity|]. rewrite F2Q_0. apply Qle_refl.
    + split; [apply isFinite_finalise|]. apply div_fin_nonneg; lia.
Qed.

(** X4: with a finite capex_cogs >= 0 and a finite grant_pct <= 1, the net
    investment is a number >= 0, and a payback that is returned is a
    number >= 0. *)
Theorem payback_is_not_negative (inputs : ROIInputs) (p : Decimal) :
  Dec.isFinite (capex_cogs inputs) = true ->
  Dec.gte (capex_cogs inputs) (Dec.ofZ 0) = true ->
  Dec.isFinite (grant_pct inputs) = true ->
  Dec.lte (grant_pct inputs) (Dec.ofZ 1) = true ->
  Dec.gte (Details.net_investment (details (calculateBatteryROI inputs))) (Dec.ofZ 0) = true /\
  (payback (calculateBatteryROI inputs) = Some p ->
   Dec.isFinite p = true /\ Dec.gte p (Dec.ofZ 0) = true).
Proof.
  intros Hcf Hc0 Hgf Hg1. field_of_result.
  apply gte_value in Hc0; [|assumption|reflexivity]. rewrite toQ_ofZ in Hc0.
  apply lte_value in Hg1; [|assumption|reflexivity]. rewrite toQ_ofZ in Hg1.
  destruct (net_investment_nonneg inputs Hcf Hc0 Hgf Hg1) as [Hnf Hn0].
  split.
  - apply gte_value; [assumption|reflexivity|]. now rewrite toQ_ofZ.
  - unfold payback_of.
    destruct (Dec.gt (annual_net inputs) (Dec.ofZ 0)) eqn:Hgt; [|discriminate].
    intros [= <-]. destruct (div_nonneg _ _ Hnf Hn0 Hgt) as [Hpf Hp0].
    split; [assumption|]. apply gte_value; [assumption|reflexivity|]. now rewrite toQ_ofZ.
Qed.

Lemma payback_is_not_negative_witness :
  Dec.gte (Details.net_investment (details (calculateBatteryROI reference_inputs)))
          (Dec.ofZ 0) = true /\
  Dec.gte (Dec.Fin 27025185811591742393 (-19)) (Dec.ofZ 0) = true.
Proof.
  destruct (payback_is_not_negative reference_inputs (Dec.Fin 27025185811591742393 (-19)))
    as [Hn Hp]; try reflexivity.
  split; [exact Hn|]. apply Hp. field_of_result. vm_compute. reflexivity.
Defined.

Lemma minus_equal_is_zero x y :
  Dec.isFinite x = true -> Dec.eq y x = true -> Dec.minus x y = Dec.Fin 0 0.
Proof.
  unfold Dec.eq. destruct x as [|s1|m1 e1], y as [|s2|m2 e2]; try discriminate; intros _.
  - now destruct s2.
  - cbn [Dec.cmp Dec.minus]. unfold Dec.align. rewrite (Z.min_comm e2 e1).
    destruct (Z.compare_spec (m2 * 10 ^ (e2 - Z.min e1 e2)) (m1 * 10 ^ (e1 - Z.min e1 e2)))
      as [E| |]; try discriminate.
    intros _. rewrite E, Z.sub_diag. reflexivity.
Qed.

(** X5: a grant of 100 % of a finite capex_cogs leaves a net investment of
    zero, and a payback of zero whenever the annual net is positive. *)
Theorem full_grant_pays_back_at_once (inputs : ROIInputs) :
  Dec.isFinite (capex_cogs inputs) = true ->
  Dec.eq (grant_pct inputs) (Dec.ofZ 1) = true ->
  Details.net_investment (details (calculateBatteryROI inputs)) = Dec.Fin 0 0 /\
  (Dec.gt (annual_net_sek (calculateBatteryROI inputs)) (Dec.ofZ 0) = true ->
   payback (calculateBatteryROI inputs) = Some (Dec.Fin 0 0)).
Proof.
  intros Hcf Hg. field_of_result.
  assert (Hni : net_investment inputs = Dec.Fin 0 0).
  { unfold net_investment. rewrite (minus_equal_is_zero (Dec.ofZ 1) _ eq_refl Hg).
    destruct (capex_cogs inputs) as [| |m e]; try discriminate.
    cbn [Dec.mul]. now rewrite Z.mul_0_r. }
  split; [exact Hni|].
  intros Hgt. unfold payback_of. rewrite Hgt, Hni. f_equal.
  pose proof (gt_zero_nonzero _ Hgt) as Hnz.
  destruct (annual_net inputs) as [|s|m e]; [discriminate| |].
  - reflexivity.
  - unfold Dec.div. cbn [Dec.isZero] in Hnz. now rewrite Hnz.
Qed.

Lemma full_grant_pays_back_at_once_witness :
  let inputs := scenario (Dec.Fin 1264000 0) (Dec.Fin 1 0) (repeat (Dec.Fin 75 0) 12)
                         (Dec.Fin 5220 0) 12 in
  Details.net_investment (details (calculateBatteryROI inputs)) = Dec.Fin 0 0 /\
  payback (calculateBatteryROI inputs) = Some (Dec.Fin 0 0).
Proof.
  cbv zeta.
  destruct (full_grant_pays_back_at_once
              (scenario (Dec.Fin 1264000 0) (Dec.Fin 1 0) (repeat (Dec.Fin 75 0) 12)
                        (Dec.Fin 5220 0) 12)) as [Hn Hp]; try reflexivity.
  split; [exact Hn|]. apply Hp. field_of_result. vm_compute. reflexivity.
Defined.

(* ================================================================== *)
(** ** The cap on self-consumption savings *)
(* ================================================================== *)

Lemma min_le_l x c :
  Dec.isFinite x = true -> Dec.isFinite c = true -> (toQ (Dec.min x c) <= toQ x)%Q.
Proof.
  intros Hx Hc. destruct x as [| |m e]; try discriminate.
  destruct c as [| |mc ec]; try discriminate.
  unfold Dec.min. destruct (Dec.gt (Dec.Fin m e) (Dec.Fin mc ec)) eqn:Hgt.
  - apply gt_value in Hgt; [|reflexivity|reflexivity]. now apply Qlt_le_weak.
  - apply Qle_refl.
Qed.

(** X6: with finite battery figures and a finite purchase price >= 0, the
    self-consumption savings are at most the value of the whole yearly PV
    production and at most the value of the energy the battery can cycle. *)
Theorem pv_savings_capped (inputs : ROIInputs) :
  Dec.isFinite (capacity_kwh inputs) = true ->
  Dec.isFinite (dod inputs) = true ->
  Dec.isFinite (efficiency inputs) = true ->
  Dec.isFinite (pv_cycles_per_year inputs) = true ->
  Dec.isFinite (annual_pv_kwh inputs) = true ->
  Dec.isFinite (purchase_price_sek_per_kwh inputs) = true ->
  Dec.gte (purchase_price_sek_per_kwh inputs) (Dec.ofZ 0) = true ->
  let pv := Details.pv_savings (details (calculateBatteryROI inputs)) in
  Dec.lte pv (Dec.mul (annual_pv_kwh inputs) (purchase_price_sek_per_kwh inputs)) = true /\
  Dec.lte pv (Dec.mul (Dec.mul (usable inputs) (pv_cycles_per_year inputs))
                      (purchase_price_sek_per_kwh inputs)) = true.
Proof.
  intros Hcap Hdod Heff Hcyc Hpv Hpf Hp0. cbv zeta. field_of_result.
  apply gte_value in Hp0; [|assumption|reflexivity]. rewrite toQ_ofZ in Hp0.
  assert (Hu : Dec.isFinite (Dec.mul (usable inputs) (pv_cycles_per_year inputs)) = true).
  { unfold usable. repeat apply isFinite_mul; assumption. }
  destruct (min_le_r _ _ Hu Hpv) as [Hmf Hmr].
  pose proof (min_le_l _ _ Hu Hpv) as Hml.
  unfold pv_savings. cbv zeta. split.
  - apply lte_value; [now apply isFinite_mul|now apply isFinite_mul|].
    apply mul_mono; try assumption. now apply Qmult_le_compat_r.
  - apply lte_value; [now apply isFinite_mul|now apply isFinite_mul|].
    apply mul_mono; try assumption. now apply Qmult_le_compat_r.
Qed.

Lemma pv_savings_capped_witness :
  let pv := Details.pv_savings (details (calculateBatteryROI reference_inputs)) in
  Dec.lte pv (Dec.mul (annual_pv_kwh reference_inputs)
                      (purchase_price_sek_per_kwh reference_inputs)) = true /\
  Dec.lte pv (Dec.mul (Dec.mul (usable reference_inputs)
                               (pv_cycles_per_year reference_inputs))
                      (purchase_price_sek_per_kwh reference_inputs)) = true.
Proof.
  apply (pv_savings_capped reference_inputs); reflexivity.
Defined.

(* ================================================================== *)
(** ** Demand savings and the monthly peaks *)
(* ================================================================== *)

Lemma add_month_above_cap (inputs : ROIInputs) acc peak :
  Dec.gt peak (cap_kw inputs) = true -> add_month inputs acc peak = month_at_cap inputs acc.
Proof.
  intros Hgt. unfold add_month, month_at_cap. cbv zeta.
  replace (Dec.min peak (cap_kw inputs)) with (cap_kw inputs); [reflexivity|].
  unfold Dec.min. rewrite Hgt.
  unfold Dec.gt in Hgt.
  destruct peak as [| |m e]; [discriminate| |]; now destruct (cap_kw inputs).
Qed.

Lemma demand_loop_above_cap (inputs : ROIInputs) peaks : forall acc,
  Forall (fun peak => Dec.gt peak (cap_kw inputs) = true) peaks ->
  fold_left (add_month inputs) peaks acc = Nat.iter (length peaks) (month_at_cap inputs) acc.
Proof.
  induction peaks as [|p peaks IH]; intros acc Hall; [reflexivity|].
  inversion Hall as [|? ? Hp Hrest]; subst.
  cbn [fold_left length]. rewrite (IH _ Hrest), (add_month_above_cap _ _ _ Hp).
  symmetry. apply Nat.iter_succ_r.
Qed.

(** X7: when every monthly peak exceeds the cap 0.6 x inverter_kw, the
    demand savings do not depend on the peaks: they are the running sum of
    one term cap x price per peak. *)
Theorem demand_savings_at_cap (inputs : ROIInputs) :
  Forall (fun peak => Dec.gt peak (cap_kw inputs) = true) (monthly_peaks_kw inputs) ->
  Details.demand_savings (details (calculateBatteryROI inputs)) =
    Nat.iter (length (monthly_peaks_kw inputs)) (month_at_cap inputs) (Dec.ofZ 0).
Proof.
  intros Hall. field_of_result. unfold demand_savings.
  now apply demand_loop_above_cap.
Qed.

Lemma demand_savings_at_cap_witness :
  Details.demand_savings (details (calculateBatteryROI
      (with_peaks reference_inputs [Dec.Fin 80 0; Dec.Fin 2 2; Dec.Inf false]))) =
    Nat.iter 3 (month_at_cap reference_inputs) (Dec.ofZ 0).
Proof.
  apply (demand_savings_at_cap
           (with_peaks reference_inputs [Dec.Fin 80 0; Dec.Fin 2 2; Dec.Inf false])).
  repeat constructor.
Defined.

Section Peaks.

Variable inputs : ROIInputs.

Hypothesis inverter_finite : Dec.isFinite (inverter_kw inputs) = true.
Hypothesis price_finite : Dec.isFinite (demand_price_sek_per_kw_month inputs) = true.
Hypothesis price_nonneg : (0 <= toQ (demand_price_sek_per_kw_month inputs))%Q.

Lemma min_mono p p' c :
  Dec.isFinite p = true -> Dec.isFinite p' = true -> Dec.isFinite c = true ->
  (toQ p <= toQ p')%Q -> (toQ (Dec.min p c) <= toQ (Dec.min p' c))%Q.
Proof.
  intros Hp Hp' Hc Hle.
  destruct p as [| |m e]; try discriminate.
  destruct p' as [| |m' e']; try discriminate.
  destruct c as [| |mc ec]; try discriminate.
  unfold Dec.min.
  destruct (Dec.gt (Dec.Fin m e) (Dec.Fin mc ec)) eqn:H1;
    destruct (Dec.gt (Dec.Fin m' e') (Dec.Fin mc ec)) eqn:H2.
  - apply Qle_refl.
  - apply gt_value in H1; [|reflexivity|reflexivity].
    apply Qlt_le_weak. eapply Qlt_le_trans; eassumption.
  - destruct (Qlt_le_dec (toQ (Dec.Fin mc ec)) (toQ (Dec.Fin m e))) as [Hlt|Hge];
      [|exact Hge].
    apply (gt_value (Dec.Fin m e) (Dec.Fin mc ec)) in Hlt; [|reflexivity|reflexivity].
    congruence.
  - exact Hle.
Qed.

Lemma add_month_mono acc acc' p p' :
  Dec.isFinite acc = true -> Dec.isFinite acc' = true ->
  Dec.isFinite p = true -> Dec.isFinite p' = true ->
  (toQ acc <= toQ acc')%Q -> (toQ p <= toQ p')%Q ->
  Dec.isFinite (add_month inputs acc p) = true /\
  Dec.isFinite (add_month inputs acc' p') = true /\
  (toQ (add_month inputs acc p) <= toQ (add_month inputs acc' p'))%Q.
Proof.
  intros Ha Ha' Hp Hp' Hle Hple.
  pose proof (cap_kw_finite inputs inverter_finite) as Hc.
  pose proof (isFinite_min _ _ Hp Hc) as Hm.
  pose proof (isFinite_min _ _ Hp' Hc) as Hm'.
  pose proof (min_mono _ _ _ Hp Hp' Hc Hple) as Hmin.
  assert (Ht : Dec.isFinite (Dec.mul (Dec.min p (cap_kw inputs))
                  (demand_price_sek_per_kw_month inputs)) = true)
    by now apply isFinite_mul.
  assert (Ht' : Dec.isFinite (Dec.mul (Dec.min p' (cap_kw inputs))
                  (demand_price_sek_per_kw_month inputs)) = true)
    by now apply isFinite_mul.
  unfold add_month. cbv zeta. repeat split.
  - now apply isFinite_plus.
  - now apply isFinite_plus.
  - apply plus_mono; try assumption.
    assert (Hterm : (toQ (Dec.mul (Dec.min p (cap_kw inputs))
                                  (demand_price_sek_per_kw_month inputs))
                     <= toQ (Dec.mul (Dec.min p' (cap_kw inputs))
                                     (demand_price_sek_per_kw_month inputs)))%Q).
    { apply mul_mono; try assumption. now apply Qmult_le_compat_r. }
    lra.
Qed.

Lemma demand_loop_mono peaks peaks' :
  Forall2 (fun p p' => Dec.isFinite p = true /\ Dec.isFinite p' = true /\
                       Dec.lte p p' = true) peaks peaks' ->
  forall acc acc',
  Dec.isFinite acc = true -> Dec.isFinite acc' = true -> (toQ acc <= toQ acc')%Q ->
  Dec.isFinite (fold_left (add_month inputs) peaks acc) = true /\
  Dec.isFinite (fold_left (add_month inputs) peaks' acc') = true /\
  (toQ (fold_left (add_month inputs) peaks acc)
   <= toQ (fold_left (add_month inputs) peaks' acc'))%Q.
Proof.
  induction 1 as [|p p' ps ps' (Hp & Hp' & Hle) _ IH]; intros acc acc' Ha Ha' Hacc.
  - cbn. now repeat split.
  - cbn [fold_left].
    apply lte_value in Hle; [|assumption|assumption].
    destruct (add_month_mono acc acc' p p' Ha Ha' Hp Hp' Hacc Hle) as (H1 & H2 & H3).
    now apply IH.
Qed.

End Peaks.

(** X8: with a finite inverter_kw and a finite demand price >= 0, raising
    monthly peaks (month by month, all of them numbers) never lowers the
    demand savings. *)
Theorem demand_savings_monotone (inputs : ROIInputs) (peaks peaks' : list Decimal) :
  Dec.isFinite (inverter_kw inputs) = true ->
  Dec.isFinite (demand_price_sek_per_kw_month inputs) = true ->
  Dec.gte (demand_price_sek_per_kw_month inputs) (Dec.ofZ 0) = true ->
  Forall2 (fun p p' => Dec.isFinite p = true /\ Dec.isFinite p' = true /\
                       Dec.lte p p' = true) peaks peaks' ->
  Dec.lte (Details.demand_savings (details (calculateBatteryROI (with_peaks inputs peaks))))
          (Details.demand_savings (details (calculateBatteryROI (with_peaks inputs peaks'))))
    = true.
Proof.
  intros Hi Hpf Hp0 Hall. field_of_result.
  apply gte_value in Hp0; [|assumption|reflexivity]. rewrite toQ_ofZ in Hp0.
  change (demand_savings (with_peaks inputs peaks))
    with (fold_left (add_month inputs) peaks (Dec.ofZ 0)).
  change (demand_savings (with_peaks inputs peaks'))
    with (fold_left (add_month inputs) peaks' (Dec.ofZ 0)).
  destruct (demand_loop_mono inputs Hi Hpf Hp0 peaks peaks' Hall (Dec.ofZ 0) (Dec.ofZ 0))
    as (H1 & H2 & H3); try reflexivity; [apply Qle_refl|].
  now apply lte_value.
Qed.

Lemma demand_savings_monotone_witness :
  Dec.lte (Details.demand_savings (details (calculateBatteryROI
             (with_peaks reference_inputs [Dec.Fin 40 0; Dec.Fin 55 0; Dec.Fin 75 0]))))
          (Details.demand_savings (details (calculateBatteryROI
             (with_peaks reference_inputs [Dec.Fin 50 0; Dec.Fin 58 0; Dec.Fin 75 0]))))
    = true.
Proof.
  apply (demand_savings_monotone reference_inputs); try reflexivity.
  repeat constructor.
Defined.

(* ================================================================== *)
(** ** The grant and the net present value *)
(* ================================================================== *)

(** X9: for a finite capex_cogs >= 0, a larger grant_pct (at most 1) never
    lowers the net present value, when the first npv is a number. *)
Theorem larger_grant_raises_npv (i : ROIInputs) (g : Decimal) :
  Dec.isFinite (capex_cogs i) = true ->
  Dec.gte (capex_cogs i) (Dec.ofZ 0) = true ->
  Dec.isFinite (grant_pct i) = true ->
  Dec.isFinite g = true ->
  Dec.lte (grant_pct i) g = true ->
  Dec.lte g (Dec.ofZ 1) = true ->
  Dec.isFinite (npv (calculateBatteryROI i)) = true ->
  Dec.isFinite (npv (calculateBatteryROI (with_grant i g))) = true /\
  Dec.gte (npv (calculateBatteryROI (with_grant i g))) (npv (calculateBatteryROI i)) = true.
Proof.
  intros Hcf Hc0 Hgf Hg'f Hle Hg1. field_of_result. intros Hnpv.
  apply gte_value in Hc0; [|assumption|reflexivity]. rewrite toQ_ofZ in Hc0.
  apply lte_value in Hle; [|assumption|assumption].
  apply lte_value in Hg1; [|assumption|reflexivity]. rewrite toQ_ofZ in Hg1.
  destruct (net_investment_facts i g Hcf Hc0 Hgf Hg'f Hle Hg1) as (Hn1 & Hn2 & _ & Hn).
  unfold npv_of in *.
  change (cash_flow_loop (with_grant i g)) with (cash_flow_loop i).
  apply minus_finite_inv in Hnpv. destruct Hnpv as [Hs _].
  assert (Hf2 : Dec.isFinite (Dec.minus (fst (cash_flow_loop i))
                                        (net_investment (with_grant i g))) = true)
    by now apply isFinite_minus.
  split; [exact Hf2|].
  apply gte_value; [exact Hf2|now apply isFinite_minus|].
  apply minus_mono; try assumption. lra.
Qed.

Lemma larger_grant_raises_npv_witness :
  Dec.gte (npv (calculateBatteryROI (with_grant reference_inputs (Dec.Fin 7 (-1)))))
          (npv (calculateBatteryROI reference_inputs)) = true.
Proof.
  apply (larger_grant_raises_npv reference_inputs (Dec.Fin 7 (-1))); reflexivity.
Defined.

(* ================================================================== *)
(** ** Savings of a site with non-negative figures *)
(* ================================================================== *)

Lemma nonneg_number_spec x :
  nonneg_number x = true <-> Dec.isFinite x = true /\ (0 <= toQ x)%Q.
Proof.
  unfold nonneg_number. rewrite andb_true_iff. split; intros [Hf H]; (split; [exact Hf|]).
  - apply gte_value in H; [|assumption|reflexivity]. now rewrite toQ_ofZ in H.
  - apply gte_value; [assumption|reflexivity|]. now rewrite toQ_ofZ.
Qed.

Lemma nonneg_mul x y :
  nonneg_number x = true -> nonneg_number y = true -> nonneg_number (Dec.mul x y) = true.
Proof.
  rewrite !nonneg_number_spec. intros [Hx Hx0] [Hy Hy0].
  split; [now apply isFinite_mul|now apply mul_nonneg].
Qed.

Lemma nonneg_plus x y :
  nonneg_number x = true -> nonneg_number y = true -> nonneg_number (Dec.plus x y) = true.
Proof.
  rewrite !nonneg_number_spec. intros [Hx Hx0] [Hy Hy0].
  split; [now apply isFinite_plus|].
  apply (Qle_trans _ (toQ (Dec.plus (Dec.Fin 0 0) (Dec.Fin 0 0)))); [vm_compute; discriminate|].
  apply plus_mono; try assumption; try reflexivity.
  change (toQ (Dec.Fin 0 0)) with (F2Q 0 0). rewrite F2Q_0. lra.
Qed.

Lemma nonneg_min x y :
  nonneg_number x = true -> nonneg_number y = true -> nonneg_number (Dec.min x y) = true.
Proof.
  intros Hx Hy. pose proof Hx as Hx'. pose proof Hy as Hy'.
  apply nonneg_number_spec in Hx' as [Hxf _]. apply nonneg_number_spec in Hy' as [Hyf _].
  destruct x as [| |m e]; try discriminate. destruct y as [| |m' e']; try discriminate.
  unfold Dec.min. now destruct (Dec.gt (Dec.Fin m e) (Dec.Fin m' e')).
Qed.

Lemma nonneg_demand_loop (inputs : ROIInputs) peaks : forall acc,
  nonneg_number (inverter_kw inputs) = true ->
  nonneg_number (demand_price_sek_per_kw_month inputs) = true ->
  Forall (fun peak => nonneg_number peak = true) peaks ->
  nonneg_number acc = true ->
  nonneg_number (fold_left (add_month inputs) peaks acc) = true.
Proof.
  intros acc Hi Hp Hall. revert acc.
  induction Hall as [|peak peaks Hpeak _ IH]; intros acc Hacc; [exact Hacc|].
  cbn [fold_left]. apply IH. unfold add_month. cbv zeta.
  apply nonneg_plus; [exact Hacc|]. apply nonneg_mul; [|exact Hp].
  apply nonneg_min; [exact Hpeak|]. unfold cap_kw. now apply nonneg_mul.
Qed.

(** X10: when the battery, price and peak figures of a site are finite
    and not negative, none of the three savings is negative, and with a
    finite o_and_m the annual net is at least 0 - o_and_m. *)
Theorem savings_are_not_negative (inputs : ROIInputs) :
  nonneg_number (capacity_kwh inputs) = true ->
  nonneg_number (dod inputs) = true ->
  nonneg_number (efficiency inputs) = true ->
  nonneg_number (pv_cycles_per_year inputs) = true ->
  nonneg_number (arbitrage_cycles_per_year inputs) = true ->
  nonneg_number (annual_pv_kwh inputs) = true ->
  nonneg_number (purchase_price_sek_per_kwh inputs) = true ->
  nonneg_number (inverter_kw inputs) = true ->
  nonneg_number (demand_price_sek_per_kw_month inputs) = true ->
  nonneg_number (spread_sek_per_kwh inputs) = true ->
  Forall (fun peak => nonneg_number peak = true) (monthly_peaks_kw inputs) ->
  Dec.isFinite (o_and_m inputs) = true ->
  let d := details (calculateBatteryROI inputs) in
  nonneg_number (Details.pv_savings d) = true /\
  nonneg_number (Details.demand_savings d) = true /\
  nonneg_number (Details.arbitrage_savings d) = true /\
  Dec.gte (annual_net_sek (calculateBatteryROI inputs))
          (Dec.minus (Dec.ofZ 0) (o_and_m inputs)) = true.
Proof.
  intros Hcap Hdod Heff Hpvc Harc Hpv Hprice Hinv Hdp Hspread Hpeaks Hom.
  cbv zeta. field_of_result.
  assert (Hu : nonneg_number (usable inputs) = true).
  { unfold usable. repeat apply nonneg_mul; assumption. }
  assert (H1 : nonneg_number (pv_savings inputs) = true).
  { unfold pv_savings. cbv zeta. apply nonneg_mul; [|exact Hprice].
    apply nonneg_min; [|exact Hpv]. now apply nonneg_mul. }
  assert (H2 : nonneg_number (demand_savings inputs) = true).
  { unfold demand_savings. now apply nonneg_demand_loop. }
  assert (H3 : nonneg_number (arbitrage_savings inputs) = true).
  { unfold arbitrage_savings. repeat apply nonneg_mul; assumption. }
  repeat split; try assumption.
  pose proof (nonneg_plus _ _ (nonneg_plus _ _ H1 H2) H3) as Hsum.
  apply nonneg_number_spec in Hsum as [Hsf Hs0].
  unfold annual_net.
  apply gte_value; [now apply isFinite_minus|now apply isFinite_minus|].
  apply minus_mono; try assumption; try reflexivity.
  change (toQ (Dec.ofZ 0)) with (F2Q 0 0). rewrite F2Q_0. lra.
Qed.

Lemma savings_are_not_negative_witness :
  Dec.gte (annual_net_sek (calculateBatteryROI loss_making_inputs))
          (Dec.minus (Dec.ofZ 0) (o_and_m loss_making_inputs)) = true.
Proof.
  apply (savings_are_not_negative loss_making_inputs); try reflexivity.
  repeat constructor.
Defined.

(* ================================================================== *)
(** ** The appendix lines of the PDF generators *)
(* ================================================================== *)

Lemma split_from_unbroken text : forall piece in_run,
  unbroken piece = true ->
  Forall (fun w => unbroken w = true) (split_from text piece in_run).
Proof.
  induction text as [|c rest IH]; intros piece in_run Hp; cbn [split_from].
  - now constructor.
  - destruct (is_whitespace c) eqn:Hc.
    + destruct in_run; [now apply IH|]. constructor; [exact Hp|now apply IH].
    + apply IH. unfold unbroken in *. rewrite forallb_app. cbn. now rewrite Hp, Hc.
Qed.

Lemma split_from_truthy text : forall piece in_run,
  (in_run = false -> truthy piece = false -> is_whitespace (hd space text) = false) ->
  (text = [] -> truthy piece = true) ->
  is_whitespace (last text space) = false \/ text = [] ->
  Forall (fun w => truthy w = true) (split_from text piece in_run).
Proof.
  induction text as [|c rest IH]; intros piece in_run Hfirst Hnil Hlast; cbn [split_from].
  - constructor; [now apply Hnil|constructor].
  - assert (Hrest : is_whitespace (last rest space) = false \/ rest = []).
    { destruct rest as [|c' rest']; [now right|left].
      destruct Hlast as [Hlast|]; [exact Hlast|discriminate]. }
    destruct (is_whitespace c) eqn:Hc.
    + assert (Hne : rest <> []).
      { intros ->. destruct Hlast as [Hlast|]; [|discriminate]. cbn in Hlast. congruence. }
      assert (IH' : Forall (fun w => truthy w = true) (split_from rest [] true)).
      { apply IH; [discriminate|intros ->; contradiction|exact Hrest]. }
      destruct in_run; [exact IH'|]. constructor; [|exact IH'].
      destruct (truthy piece) eqn:Hp; [reflexivity|].
      specialize (Hfirst eq_refl eq_refl). cbn in Hfirst. congruence.
    + apply IH; [| |exact Hrest].
      * intros _ H. now destruct piece.
      * intros _. now destruct piece.
Qed.

Lemma split_from_no_whitespace text : forall piece,
  unbroken text = true -> split_from text piece false = [piece ++ text].
Proof.
  induction text as [|c rest IH]; intros piece H; cbn [split_from].
  - now rewrite app_nil_r.
  - cbn in H. apply andb_true_iff in H as [Hc Hr]. apply negb_true_iff in Hc.
    rewrite Hc, (IH _ Hr), <- app_assoc. reflexivity.
Qed.

(** The lines already pushed stay in place. *)
Lemma wrap_loop_prefix words : forall lines current,
  exists more, fst (fold_left wrap_step words (lines, current)) = lines ++ more.
Proof.
  induction words as [|w words IH]; intros lines current; cbn [fold_left].
  - exists []. now rewrite app_nil_r.
  - unfold wrap_step at 2.
    destruct (80 <? length _)%nat.
    + destruct (IH (lines ++ [current]) w) as [more ->].
      exists (current :: more). now rewrite <- app_assoc.
    + apply IH.
Qed.

Lemma wrap_loop_lines (words ws : list jsstring) : forall lines current,
  incl ws words ->
  Forall (fits_or_word words) lines -> fits_or_word words current ->
  Forall (fits_or_word words) (fst (fold_left wrap_step ws (lines, current))) /\
  fits_or_word words (snd (fold_left wrap_step ws (lines, current))).
Proof.
  induction ws as [|w ws IH]; intros lines current Hin Hl Hc; cbn [fold_left].
  - now split.
  - assert (Hw : In w words) by (apply Hin; now left).
    assert (Hws : incl ws words) by (intros x Hx; apply Hin; now right).
    unfold wrap_step at 2 4.
    destruct (80 <? length _)%nat eqn:Hlen.
    + apply IH; [exact Hws| |now right].
      apply Forall_app. split; [exact Hl|]. constructor; [exact Hc|constructor].
    + apply IH; [exact Hws|exact Hl|]. left. now apply Nat.ltb_ge in Hlen.
Qed.

Lemma push_last_fits (words : list jsstring) (st : list jsstring * jsstring) :
  Forall (fits_or_word words) (fst st) -> fits_or_word words (snd st) ->
  Forall (fits_or_word words) (push_last st).
Proof.
  destruct st as [lines current]. cbn [fst snd push_last]. intros Hl Hc.
  destruct (truthy current); [|exact Hl].
  apply Forall_app. split; [exact Hl|]. constructor; [exact Hc|constructor].
Qed.

(** X14: every appendix line has at most 80 code units, or is a single
    word of the text, free of whitespace, that is longer than that. *)
Theorem appendix_lines_fit (appendixText : option jsstring) :
  Forall (fun line =>
            (length line <= 80)%nat \/
            (exists text, appendixText = Some text /\ In line (split_whitespace text) /\
                          unbroken line = true))
         (appendixLines appendixText).
Proof.
  destruct appendixText as [text|]; [|constructor].
  cbn [appendixLines]. destruct (truthy text); [|constructor].
  assert (H : Forall (fits_or_word (split_whitespace text))
                (push_last (fold_left wrap_step (split_whitespace text) ([], [])))).
  { apply push_last_fits; apply wrap_loop_lines;
      try apply incl_refl; try constructor; apply Nat.le_0_l. }
  revert H. apply Forall_impl. intros line [Hfit|Hin]; [now left|right].
  exists text. split; [reflexivity|]. split; [exact Hin|].
  pose proof (split_from_unbroken text [] false eq_refl) as Hu.
  rewrite Forall_forall in Hu. now apply Hu.
Qed.

Lemma join_spaces_cons line rest :
  rest <> [] -> join_spaces (line :: rest) = line ++ [space] ++ join_spaces rest.
Proof. destruct rest; [contradiction|reflexivity]. Qed.

Lemma join_spaces_merge lines a b rest :
  join_spaces (lines ++ (a ++ [space] ++ b) :: rest) = join_spaces (lines ++ a :: b :: rest).
Proof.
  induction lines as [|l lines IH].
  - cbn [app]. destruct rest as [|r rest]; [reflexivity|].
    rewrite (join_spaces_cons (a ++ space :: b)) by discriminate.
    rewrite (join_spaces_cons a) by discriminate.
    rewrite (join_spaces_cons b) by discriminate.
    cbn [app]. rewrite <- !app_assoc. reflexivity.
  - cbn [app] in *.
    rewrite !join_spaces_cons by (destruct lines; discriminate).
    cbn [app]. now rewrite IH.
Qed.

Lemma filter_truthy_last lines current :
  filter truthy (push_last (lines, current)) = filter truthy (lines ++ [current]).
Proof.
  cbn [push_last]. destruct current as [|c current]; [|reflexivity].
  cbn [truthy]. rewrite filter_app. cbn. now rewrite app_nil_r.
Qed.

(** The words read so far, joined by single spaces, are the lines kept so
    far, joined by single spaces. *)
Lemma wrap_loop_joined words : forall lines current,
  Forall (fun w => truthy w = true) words ->
  join_spaces (filter truthy (push_last (fold_left wrap_step words (lines, current)))) =
  join_spaces (filter truthy (lines ++ [current]) ++ words).
Proof.
  induction words as [|w words IH]; intros lines current Hall; cbn [fold_left].
  - now rewrite filter_truthy_last, app_nil_r.
  - inversion Hall as [|? ? Hw Hrest]; subst.
    unfold wrap_step at 2.
    destruct (80 <? length _)%nat.
    + rewrite (IH _ _ Hrest), filter_app.
      cbn [filter]. rewrite Hw, <- app_assoc. reflexivity.
    + rewrite (IH _ _ Hrest), !filter_app.
      destruct current as [|c current]; cbn [truthy filter app].
      * rewrite Hw, app_nil_r, <- app_assoc. reflexivity.
      * rewrite <- !app_assoc.
        apply (join_spaces_merge (filter truthy lines) (c :: current) w words).
Qed.

(** X15: for a text that neither begins nor ends with whitespace, the
    non-empty appendix lines joined by single spaces are the words of the
    text joined by single spaces: wrapping drops and reorders nothing. *)
Theorem appendix_keeps_the_words (text : jsstring) :
  is_whitespace (hd space text) = false ->
  is_whitespace (last text space) = false ->
  join_spaces (filter truthy (appendixLines (Some text))) =
  join_spaces (split_whitespace text).
Proof.
  intros Hhd Hlast. cbn [appendixLines].
  destruct text as [|c text]; [discriminate|]. cbn [truthy].
  apply wrap_loop_joined.
  apply split_from_truthy; [intros _ _; exact Hhd|discriminate|now left].
Qed.

Lemma appendix_keeps_the_words_witness :
  join_spaces (filter truthy (appendixLines (Some (units [69; 85; 9; 10; 50; 48]))))
  = units [69; 85; 32; 50; 48].
Proof.
  rewrite (appendix_keeps_the_words (units [69; 85; 9; 10; 50; 48])); reflexivity.
Defined.

Lemma push_last_prefix (st : list jsstring * jsstring) lines :
  (exists more, fst st = lines ++ more) -> exists rest, push_last st = lines ++ rest.
Proof.
  destruct st as [ls current]. cbn [fst push_last]. intros [more ->].
  destruct (truthy current); [|now exists more].
  exists (more ++ [current]). now rewrite app_assoc.
Qed.

(** X16: when the first word of the text is longer than 80 code units, the
    first appendix line is the empty string. *)
Theorem long_first_word_gives_blank_line (text w : jsstring) (ws : list jsstring) :
  split_whitespace text = w :: ws ->
  (80 < length w)%nat ->
  exists rest, appendixLines (Some text) = [] :: rest.
Proof.
  intros Hsplit Hlen. cbn [appendixLines].
  destruct text as [|c text].
  - cbn in Hsplit. injection Hsplit as <- _. cbn in Hlen. lia.
  - cbn [truthy]. rewrite Hsplit. cbn [fold_left].
    unfold wrap_step at 2. cbn [truthy app].
    apply Nat.ltb_lt in Hlen. rewrite Hlen.
    destruct (push_last_prefix _ [[]] (wrap_loop_prefix ws [[]] w)) as [rest Hrest].
    exists rest. exact Hrest.
Qed.

Lemma long_first_word_gives_blank_line_witness :
  exists rest, appendixLines (Some (repeat 120%N 81 ++ units [32; 111; 107])) = [] :: rest.
Proof.
  apply (long_first_word_gives_blank_line _ (repeat 120%N 81) [units [111; 107]]).
  - reflexivity.
  - cbn. lia.
Defined.

(** X17: a non-empty text without whitespace gives a single line when it
    has at most 80 code units, and an empty line followed by the text
    otherwise. *)
Theorem unbroken_text_lines (text : jsstring) :
  truthy text = true -> unbroken text = true ->
  appendixLines (Some text) = if (80 <? length text)%nat then [[]; text] else [text].
Proof.
  intros Ht Hu. cbn [appendixLines]. rewrite Ht.
  unfold split_whitespace. rewrite (split_from_no_whitespace _ _ Hu).
  cbn [app fold_left]. unfold wrap_step. cbn [truthy app].
  destruct (80 <? length text)%nat; cbn [push_last]; now rewrite Ht.
Qed.

Lemma unbroken_text_lines_witness :
  appendixLines (Some (units [110; 47; 97])) = [units [110; 47; 97]].
Proof.
  apply (unbroken_text_lines (units [110; 47; 97])); reflexivity.
Defined.
